(** * findupe: duplicate-file finder (main.go, args.go)

    A shallow embedding of the hashing pipeline of findupe: the digest
    engine ([hashData]), the hash worker ([hashRequest], [hashingWorker]),
    the directory walker callback ([walkFn]) and the aggregator
    ([aggregateHashes]), followed by the properties of the pipeline.

    Go strings are byte sequences and are modelled by [string]; [int64]
    values are modelled by [Z] with the two's-complement wrap-around
    written out; [map[string][]string] is a [gmap string (list string)];
    a channel drained by [range] is the list of values received from it. *)

From Stdlib Require Import ZArith.
From Stdlib.Strings Require Import Ascii String Byte.
From stdpp Require Import gmap strings list fin_maps.

Local Open Scope Z_scope.

(** ** Data model *)

(** [FileHash] is a response to and request for file hashing. *)
Record FileHash : Type := mkFileHash {
  Pathname : string;   (* full file and pathname of the file *)
  Size : Z;            (* int64: size of the file in bytes *)
  Hash : string        (* fingerprint, empty until a worker fills it *)
}.

(** [CollisionTable] is a dictionary of file-hash -> file-list. *)
Abbreviation CollisionTable := (gmap string (list string)).

(** ** 64-bit signed arithmetic *)

Module Int64.

Definition modulus : Z := 2 ^ 64.
Definition half : Z := 2 ^ 63.

(** Two's-complement wrap-around of a mathematical integer into int64. *)
Definition wrap (x : Z) : Z := (x + half) mod modulus - half.

Definition add (x y : Z) : Z := wrap (x + y).
Definition sub (x y : Z) : Z := wrap (x - y).

(** [x++] on an int64 variable. *)
Definition incr (x : Z) : Z := add x 1.

Definition in_range (x : Z) : Prop := - half <= x < half.

End Int64.

(** ** Aggregator *)

(** The two dictionaries [aggregateHashes] keeps while it drains the
    reply channel. *)
Record AggState : Type := mkAggState {
  singles : CollisionTable;
  collisions : CollisionTable
}.

(** [singles := make(CollisionTable); collisions := make(CollisionTable)] *)
Definition aggInit : AggState := mkAggState ∅ ∅.

(** One iteration of [for response := range replies]. *)
Definition aggregateStep (st : AggState) (response : FileHash) : AggState :=
  match collisions st !! Hash response with
  | Some bucket =>
      (* collisions[h] = append(collisions[h], response.Pathname) *)
      mkAggState (singles st)
                 (<[Hash response := bucket ++ [Pathname response]]> (collisions st))
  | None =>
      match singles st !! Hash response with
      | Some lone =>
          (* collisions[h] = append(singles[h], response.Pathname)
             delete(singles, h) *)
          mkAggState (delete (Hash response) (singles st))
                     (<[Hash response := lone ++ [Pathname response]]> (collisions st))
      | None =>
          (* singles[h] = []string{response.Pathname} *)
          mkAggState (<[Hash response := [Pathname response]]> (singles st))
                     (collisions st)
      end
  end.

(** The whole loop: the state once [replies] is closed and drained. *)
Definition aggregateLoop (replies : list FileHash) : AggState :=
  fold_left aggregateStep replies aggInit.

(** The numbers of the closing [log.Print] line. *)
Record Summary : Type := mkSummary {
  misses : Z;          (* len(singles) *)
  collidingFiles : Z;  (* "Collisions:" *)
  hashes : Z;          (* len(collisions) *)
  duplicates : Z       (* "Dupes:" *)
}.

(** [aggregateHashes]: the table it returns and the summary it logs.
    [hashingFiles] is the global counter left by the walker. *)
Definition aggregateHashes (hashingFiles : Z) (replies : list FileHash)
  : CollisionTable * Summary :=
  let st := aggregateLoop replies in
  let nsingles := Z.of_nat (size (singles st)) in
  let ncollisions := Z.of_nat (size (collisions st)) in
  let colliding := Int64.sub hashingFiles nsingles in
  let dupes := Int64.sub colliding ncollisions in
  (collisions st, mkSummary nsingles colliding ncollisions dupes).

(** The paths, in arrival order, of the results carrying fingerprint [h]. *)
Definition paths_of (h : string) (rs : list FileHash) : list string :=
  Pathname <$> filter (λ r, Hash r = h) rs.

(** What the two dictionaries hold once the results [seen] were consumed. *)
Definition tracks (st : AggState) (seen : list FileHash) : Prop :=
  ∀ h : string,
    collisions st !! h
      = (if decide (2 ≤ length (paths_of h seen))%nat
         then Some (paths_of h seen) else None)
    ∧ singles st !! h
      = (if decide (length (paths_of h seen) = 1%nat)
         then Some (paths_of h seen) else None).

(** The aggregator as section 4.4 words it: the singles map binds a
    fingerprint to its one path, and a second arrival moves "that one path
    plus the new path" into a new bucket. *)
Record RuleState : Type := mkRuleState {
  rule_singles : gmap string string;
  rule_collisions : CollisionTable
}.

Definition decisionRule (st : RuleState) (fingerprint path : string) : RuleState :=
  match rule_collisions st !! fingerprint with
  | Some bucket =>
      (* 1. the fingerprint already has a collisions-bucket: append *)
      mkRuleState (rule_singles st)
                  (<[fingerprint := bucket ++ [path]]> (rule_collisions st))
  | None =>
      match rule_singles st !! fingerprint with
      | Some stored =>
          (* 2. promote the stored path and the new one, drop the single *)
          mkRuleState (delete fingerprint (rule_singles st))
                      (<[fingerprint := [stored; path]]> (rule_collisions st))
      | None =>
          (* 3. the lone entry under that fingerprint *)
          mkRuleState (<[fingerprint := path]> (rule_singles st))
                      (rule_collisions st)
      end
  end.

Definition ruleLoop (replies : list FileHash) : RuleState :=
  fold_left (λ st r, decisionRule st (Hash r) (Pathname r)) replies
            (mkRuleState ∅ ∅).

(** The dictionaries of the code that represent a [RuleState]. *)
Definition concretize (st : RuleState) : AggState :=
  mkAggState ((λ p, [p]) <$> rule_singles st) (rule_collisions st).

(** Total number of paths held in the buckets of a table. *)
Definition pathCount (t : CollisionTable) : nat :=
  map_fold (λ _ bucket n, (length bucket + n)%nat) 0%nat t.

(** ** Formatting helpers of the Go library, as used by the program *)

(** [strings.ReplaceAll(s, old, new)] for one-byte [old] and [new]. *)
Fixpoint ReplaceAll (s : string) (old new : ascii) : string :=
  match s with
  | EmptyString => EmptyString
  | String c s' =>
      String (if Ascii.eqb c old then new else c) (ReplaceAll s' old new)
  end.

Definition backslash : ascii := ascii_of_nat 92.
Definition slash : ascii := ascii_of_nat 47.

(** [encoding/hex]: [hextable] and [EncodeToString]. *)
Definition hextable : string := "0123456789abcdef".

Definition hexdigit (v : N) : ascii :=
  default "0"%char (String.get (N.to_nat v) hextable).

Fixpoint EncodeToString (src : list byte) : string :=
  match src with
  | [] => EmptyString
  | v :: src' =>
      String (hexdigit (N.shiftr (Byte.to_N v) 4))
        (String (hexdigit (N.land (Byte.to_N v) 15)) (EncodeToString src'))
  end.

(** The decimal digit loop of [fmt]: least significant digit first, pushed
    in front of [acc].  Twenty rounds cover every 64-bit magnitude. *)
Fixpoint utoa_fuel (fuel : nat) (u : N) (acc : string) : string :=
  match fuel with
  | O => acc
  | S fuel' =>
      if (u <? 10)%N then String (ascii_of_N (48 + u)) acc
      else utoa_fuel fuel' (u / 10)%N (String (ascii_of_N (48 + u mod 10)) acc)
  end.

Definition utoa (u : N) : string := utoa_fuel 20 u EmptyString.

Fixpoint zeros (n : nat) : string :=
  match n with
  | O => EmptyString
  | S n' => String "0"%char (zeros n')
  end.

(** The verb [%016d] applied to an int64: zero padding to a minimum width
    of 16, the sign (if any) counted in the width and put before the
    zeros. *)
Definition fmt_016d (n : Z) : string :=
  let negative := n <? 0 in
  let digits := utoa (Z.to_N (Z.abs n)) in
  let prec := if negative then 15%nat else 16%nat in
  (if negative then "-" else "")
    +:+ zeros (prec - String.length digits) +:+ digits.

(** [fmt.Sprintf("%016d.%s", size, hashString)] *)
Definition Sprintf_016d_s (size : Z) (hashString : string) : string :=
  fmt_016d size +:+ "." +:+ hashString.

(** Value of a string of decimal digits (used to read renderings back). *)
Definition decimalValue (s : string) : N :=
  fold_left (λ acc c, (10 * acc + (N_of_ascii c - 48))%N) (list_ascii_of_string s) 0%N.

Definition isDigit (c : ascii) : bool :=
  ((48 <=? N_of_ascii c) && (N_of_ascii c <=? 57))%N.

Definition isLowerHex (c : ascii) : bool :=
  isDigit c || ((97 <=? N_of_ascii c) && (N_of_ascii c <=? 102))%N.

Definition allChars (P : ascii → bool) (s : string) : bool :=
  forallb P (list_ascii_of_string s).

(** ** Command line flags (args.go) and their checks in [main] *)

Record Flags : Type := mkFlags {
  BasePath : string;
  MinBytes : Z;
  Threads : Z;
  Thorough : bool;
  ListCollisions : bool
}.

(** The defaults declared in args.go. *)
Definition defaultFlags : Flags := mkFlags "." 256 9 false false.

(** A call either returns or panics. *)
Inductive outcome (A : Type) : Type :=
| Returned (a : A)
| Panicked.
Arguments Returned {A} a.
Arguments Panicked {A}.

(** The checks [main] applies to the parsed flags before it starts the
    pipeline: [--threads] below 1 panics, a negative [--min-bytes] is
    replaced by 0. *)
Definition checkFlags (f : Flags) : outcome Flags :=
  if Threads f <? 1 then Panicked
  else if MinBytes f <? 0
       then Returned (mkFlags (BasePath f) 0 (Threads f) (Thorough f) (ListCollisions f))
       else Returned f.

(** ** Digest engine *)

(** The part of Go's [hash.Hash] interface that [hashData] relies on:
    a fresh state, [Write] and [Sum(nil)]. *)
Record Hasher : Type := mkHasher {
  hstate : Type;
  New : hstate;
  Write : hstate → list byte → hstate;
  Sum : hstate → list byte
}.

(** What opening and reading one file yields: [os.Open] fails, or
    [io.Copy] delivers some chunks and then fails, or it delivers all
    chunks up to the end of the file. *)
Inductive FileRead : Type :=
| OpenFails (err : string)
| CopyFails (chunks : list (list byte)) (err : string)
| CopyDone (chunks : list (list byte)).

(** The file system seen by one worker: the outcome of its [n]-th
    [os.Open] (counted from 0) for a given path.  Two reads of the same
    path may differ: the tree can change while it is scanned. *)
Definition Disk : Type := nat → string → FileRead.

(** State threaded through a worker: how many files it opened so far
    and what it wrote to the log. *)
Record IOState : Type := mkIOState {
  opens : nat;
  logged : list string
}.

Definition IO (A : Type) : Type := IOState → A * IOState.

Definition ret {A} (a : A) : IO A := λ s, (a, s).

Definition bind {A B} (m : IO A) (k : A → IO B) : IO B :=
  λ s, let (a, s') := m s in k a s'.

Notation "x <~ m ;; k" := (bind m (λ x, k))
  (at level 100, m at next level, right associativity).

(** [log.Printf] *)
Definition logPrint (msg : string) : IO unit :=
  λ s, (tt, mkIOState (opens s) (logged s ++ [msg])).

(** [os.Open] followed by reading the file to its end. *)
Definition openAndCopy (disk : Disk) (pathname : string) : IO FileRead :=
  λ s, (disk (opens s) pathname, mkIOState (S (opens s)) (logged s)).

(** A Go [(string, error)] result. *)
Inductive result : Type :=
| Ok (value : string)
| Err (msg : string).

(** The hasher after [io.Copy] wrote the chunks to it. *)
Definition copied (h : Hasher) (chunks : list (list byte)) : hstate h :=
  fold_left (Write h) chunks (New h).

(** The digest of a file's contents, as lowercase hexadecimal. *)
Definition hexDigest (h : Hasher) (chunks : list (list byte)) : string :=
  EncodeToString (Sum h (copied h chunks)).

Section Pipeline.

Variable sha512 md5 : Hasher.
Variable disk : Disk.
Variable flags : Flags.

(** [hashData] executes a hashing algorithm against a file to produce
    the hash string. *)
Definition hashData (pathname : string) (hasher : Hasher) : IO result :=
  file <~ openAndCopy disk pathname ;;
  match file with
  | OpenFails err => ret (Err err)
  | CopyFails _ err => ret (Err err)
  | CopyDone chunks => ret (Ok (hexDigest hasher chunks))
  end.

(** [hashRequest] generates the hash or hashes of one file and populates
    the response; [None] is the [nil] it returns on failure. *)
Definition hashRequest (request : FileHash) : IO (option FileHash) :=
  let pathname := ReplaceAll (Pathname request) backslash slash in
  r <~ hashData pathname sha512 ;;
  match r with
  | Err err =>
      _ <~ logPrint ("error reading " +:+ pathname +:+ ": " +:+ err) ;;
      ret None
  | Ok hashString =>
      if Thorough flags then
        (* extend the fingerprint with an md5 checksum *)
        r2 <~ hashData pathname md5 ;;
        match r2 with
        | Err err =>
            _ <~ logPrint ("error re-reading " +:+ pathname +:+ ": " +:+ err) ;;
            ret None
        | Ok md5String =>
            ret (Some (mkFileHash pathname (Size request)
                         (Sprintf_016d_s (Size request)
                                         (hashString +:+ "." +:+ md5String))))
        end
      else
        ret (Some (mkFileHash pathname (Size request)
                     (Sprintf_016d_s (Size request) hashString)))
  end.

(** [hashingWorker]: the replies one worker sends for the requests it
    receives, in order. *)
Fixpoint hashingWorker (requests : list FileHash) : IO (list FileHash) :=
  match requests with
  | [] => ret []
  | request :: rest =>
      reply <~ hashRequest request ;;
      replies <~ hashingWorker rest ;;
      ret (match reply with
           | Some r => r :: replies
           | None => replies
           end)
  end.

(** ** Directory walker *)

(** The methods of [os.FileInfo] that [walkFn] calls. *)
Record FileInfo : Type := mkFileInfo {
  IsDir : bool;
  info_Size : Z
}.

(** One call [filepath.Walk] makes to the callback: the path, the file
    information ([None] is a nil [info], which Walk passes when [Lstat]
    failed) and the per-entry error ([None] is a nil error). *)
Record Entry : Type := mkEntry {
  entry_path : string;
  entry_info : option FileInfo;
  entry_err : option string
}.

(** The global counters and the requests sent on [hashReqCh] so far. *)
Record WalkState : Type := mkWalkState {
  totalFiles : Z;
  underSizedFiles : Z;
  hashingFiles : Z;
  hashReqCh : list FileHash
}.

Definition walkInit : WalkState := mkWalkState 0 0 0 [].

(** [walkFn] receives paths from [filepath.Walk] and dispatches them as
    requests.  Calling [info.IsDir()] on a nil [info] panics. *)
Definition walkFn (path : string) (info : option FileInfo)
    (fileErr : option string) (st : WalkState) : outcome WalkState :=
  match info with
  | None => Panicked
  | Some info =>
      (* ignore directories *)
      if IsDir info then Returned st
      else
        let total := Int64.incr (totalFiles st) in
        match fileErr with
        | Some _ =>
            (* a problem accessing the file: ignore it *)
            Returned (mkWalkState total (underSizedFiles st) (hashingFiles st)
                                  (hashReqCh st))
        | None =>
            if (info_Size info =? 0) || (info_Size info <? MinBytes flags) then
              Returned (mkWalkState total (Int64.incr (underSizedFiles st))
                                    (hashingFiles st) (hashReqCh st))
            else
              Returned (mkWalkState total (underSizedFiles st)
                          (Int64.incr (hashingFiles st))
                          (hashReqCh st ++ [mkFileHash path (info_Size info) ""]))
        end
  end.

(** [filepath.Walk] over the base path: [walkFn] always returns a nil
    error, so the walk goes through every entry unless a call panics. *)
Fixpoint walk (entries : list Entry) (st : WalkState) : outcome WalkState :=
  match entries with
  | [] => Returned st
  | e :: rest =>
      match walkFn (entry_path e) (entry_info e) (entry_err e) st with
      | Returned st' => walk rest st'
      | Panicked => Panicked
      end
  end.

(** [walkFiles]: the walk from the zeroed counters and the empty queue. *)
Definition walkFiles (entries : list Entry) : outcome WalkState :=
  walk entries walkInit.

(** A scan in which one worker answers every request: the walker fills
    the request queue, the worker answers it in order, the aggregator
    consumes the replies and reads [hashingFiles] for its summary.  (With
    several workers the aggregator receives an interleaving of their
    replies.) *)
Definition scan (entries : list Entry) : outcome (CollisionTable * Summary) :=
  match walkFiles entries with
  | Panicked => Panicked
  | Returned w =>
      let (replies, _) := hashingWorker (hashReqCh w) (mkIOState 0 []) in
      Returned (aggregateHashes (hashingFiles w) replies)
  end.

End Pipeline.

(** ** Failure of a digest computation *)

(** The [n]-th open of [pathname] does not reach the end of the file. *)
Definition readFails (disk : Disk) (n : nat) (pathname : string) : bool :=
  match disk n pathname with
  | CopyDone _ => false
  | OpenFails _ | CopyFails _ _ => true
  end.

(** The digest computation for [request], started in state [s], fails:
    the read for the primary digest fails, or thorough mode is on and the
    read for the secondary digest fails. *)
Definition digestFails (disk : Disk) (flags : Flags)
    (request : FileHash) (s : IOState) : bool :=
  let pathname := ReplaceAll (Pathname request) backslash slash in
  readFails disk (opens s) pathname
  || (Thorough flags && readFails disk (S (opens s)) pathname).

(** ** Small hashers and file systems for concrete runs *)

(** A byte-sum checksum and a byte-count, standing in for the two
    algorithms where a run has to be evaluated. *)
Definition sumHasher : Hasher :=
  mkHasher N 0%N
    (λ st chunk, fold_left (λ a b, ((a + Byte.to_N b) mod 256)%N) chunk st)
    (λ st, [default x00%byte (Byte.of_N st)]).

Definition lenHasher : Hasher :=
  mkHasher N 0%N
    (λ st chunk, ((st + N.of_nat (length chunk)) mod 256)%N)
    (λ st, [default x00%byte (Byte.of_N st)]).

(** A tree in which every file reads as the two chunks "ab", "c",
    except that anything under "/gone" cannot be opened. *)
Definition sampleDisk : Disk :=
  λ _ pathname,
    if String.prefix "/gone" pathname then OpenFails "no such file or directory"
    else CopyDone [[x61; x62]; [x63]]%byte.

(** ** Classes of traversal entries *)

(** A non-directory entry (one that [walkFn] counts in [totalFiles]). *)
Definition isFile (e : Entry) : bool :=
  match entry_info e with
  | Some info => negb (IsDir info)
  | None => false
  end.

(** A non-directory entry skipped because of its access error. *)
Definition isErrorSkip (e : Entry) : bool :=
  isFile e && bool_decide (is_Some (entry_err e)).

(** The size test of [walkFn]. *)
Definition tooSmall (flags : Flags) (size : Z) : bool :=
  (size =? 0) || (size <? MinBytes flags).

Definition entrySize (e : Entry) : Z :=
  from_option info_Size 0 (entry_info e).

Definition isUndersized (flags : Flags) (e : Entry) : bool :=
  isFile e && bool_decide (entry_err e = None) && tooSmall flags (entrySize e).

Definition isHashed (flags : Flags) (e : Entry) : bool :=
  isFile e && bool_decide (entry_err e = None)
  && negb (tooSmall flags (entrySize e)).

(** How many entries of a walk fall in a class. *)
Definition countEntries (P : Entry → bool) (entries : list Entry) : Z :=
  Z.of_nat (length (filter (λ e, P e = true) entries)).

(** A sample tree: a directory, two files of 300 bytes (the second one
    vanishes before it is hashed), a small file, an empty file and a file
    whose metadata came with an error. *)
Definition sampleTree : list Entry :=
  [ mkEntry "/data" (Some (mkFileInfo true 4096)) None;
    mkEntry "/data/a" (Some (mkFileInfo false 300)) None;
    mkEntry "/gone/b" (Some (mkFileInfo false 300)) None;
    mkEntry "/data/small" (Some (mkFileInfo false 10)) None;
    mkEntry "/data/empty" (Some (mkFileInfo false 0)) None;
    mkEntry "/data/locked" (Some (mkFileInfo false 300)) (Some "permission denied") ].

(** ** Reading fingerprints back *)

(** The inverse of [hexdigit] and of [EncodeToString] ([fromHexChar] and
    [DecodeString] of [encoding/hex]); the program never decodes, they
    serve to show that the encoding loses nothing. *)
Definition fromHexChar (c : ascii) : option N :=
  let n := N_of_ascii c in
  if ((48 <=? n) && (n <=? 57))%N then Some (n - 48)%N
  else if ((97 <=? n) && (n <=? 102))%N then Some (n - 87)%N
  else if ((65 <=? n) && (n <=? 70))%N then Some (n - 55)%N
  else None.

Fixpoint DecodeString (s : string) : option (list byte) :=
  match s with
  | EmptyString => Some []
  | String _ EmptyString => None
  | String a (String b rest) =>
      match fromHexChar a, fromHexChar b, DecodeString rest with
      | Some hi, Some lo, Some bytes =>
          match Byte.of_N (16 * hi + lo) with
          | Some v => Some (v :: bytes)
          | None => None
          end
      | _, _, _ => None
      end
  end.

(** The digest bytes a read yields ([None] when the read fails). *)
Definition digestBytes (h : Hasher) (file : FileRead) : option (list byte) :=
  match file with
  | CopyDone chunks => Some (Sum h (copied h chunks))
  | OpenFails _ | CopyFails _ _ => None
  end.

(** ** Requests and answers *)

(** The request [walkFn] sends for an entry it passes on to hashing. *)
Definition requestOf (e : Entry) : FileHash :=
  mkFileHash (entry_path e) (entrySize e) "".

(** What a reply keeps of its request: the normalised path and the size. *)
Definition requestKey (r : FileHash) : string * Z :=
  (ReplaceAll (Pathname r) backslash slash, Size r).

Definition replyKey (p : FileHash) : string * Z := (Pathname p, Size p).

(** ** The pipeline of [main] as a transition system *)

(** [main] starts [walkFiles] and [workers] as goroutines and runs
    [aggregateHashes] itself; [workers] starts one [hashingWorker] per
    thread, waits for all of them and closes the reply channel.  The
    goroutines interact through the two buffered channels only.  A state
    of the system records where each goroutine stands and what the
    channels hold; a step is one goroutine doing its next channel
    operation together with the local work that precedes it. *)

(** [walkFiles]: still walking (the entries not yet visited), or done
    with [hashReqCh] closed. *)
Inductive WalkerPhase : Type :=
| Walking (rest : list Entry)
| WalkerDone.

(** [hashingWorker]: waiting to receive a request, holding a reply it is
    about to send, or returned (its [workerGroup.Done] is called). *)
Inductive WorkerPhase : Type :=
| Idle
| Holding (reply : FileHash)
| Exited.

Record Worker : Type := mkWorker {
  w_io : IOState;
  w_phase : WorkerPhase
}.

Record System : Type := mkSystem {
  sys_walker : WalkerPhase;
  sys_walk : WalkState;         (* the counters; every request sent so far *)
  sys_received : nat;           (* how many requests the workers received *)
  sys_workers : list Worker;
  sys_replies : list FileHash;  (* the buffer of hashRepCh, oldest first *)
  sys_repliesClosed : bool;
  sys_agg : AggState;           (* singles and collisions of the aggregator *)
  sys_consumed : list FileHash; (* the replies the aggregator received *)
  sys_result : option (CollisionTable * Summary)
}.

(** [make(chan *FileHash, 65536)] and [make(chan *FileHash, *Threads * 2)] *)
Definition reqCap : nat := Z.to_nat 65536.
Definition repCap (flags : Flags) : nat := Z.to_nat (Threads flags * 2).

(** The end of [aggregateHashes], after the loop. *)
Definition aggFinish (hashingFiles : Z) (st : AggState)
  : CollisionTable * Summary :=
  let nsingles := Z.of_nat (size (singles st)) in
  let ncollisions := Z.of_nat (size (collisions st)) in
  let colliding := Int64.sub hashingFiles nsingles in
  let dupes := Int64.sub colliding ncollisions in
  (collisions st, mkSummary nsingles colliding ncollisions dupes).

Definition held (w : Worker) : option FileHash :=
  match w_phase w with
  | Holding reply => Some reply
  | Idle | Exited => None
  end.

Definition afterRequest (s : IOState) (reply : option FileHash) : Worker :=
  mkWorker s (match reply with Some p => Holding p | None => Idle end).

Definition remaining (w : WalkerPhase) : list Entry :=
  match w with
  | Walking rest => rest
  | WalkerDone => []
  end.

Section System.

Variable sha512 md5 : Hasher.
Variable disks : nat → Disk.   (* the file system as worker [i] sees it *)
Variable flags : Flags.

(** The state in which [main] leaves the flag checks: nothing walked,
    every worker waiting, both channels empty and open. *)
Definition sysInit (entries : list Entry) : System :=
  mkSystem (Walking entries) walkInit 0
           (replicate (Z.to_nat (Threads flags)) (mkWorker (mkIOState 0 []) Idle))
           [] false aggInit [] None.

Inductive step : System → System → Prop :=
| step_walk e rest w w' k ws buf cl agg con res :
    (* walkFn on the next entry; a send needs room in hashReqCh *)
    walkFn flags (entry_path e) (entry_info e) (entry_err e) w = Returned w' →
    (length (hashReqCh w') ≤ k + reqCap)%nat →
    step (mkSystem (Walking (e :: rest)) w k ws buf cl agg con res)
         (mkSystem (Walking rest) w' k ws buf cl agg con res)
| step_close_requests w k ws buf cl agg con res :
    (* filepath.Walk returned: close(requests) *)
    step (mkSystem (Walking []) w k ws buf cl agg con res)
         (mkSystem WalkerDone w k ws buf cl agg con res)
| step_take i s r wk w k ws buf cl agg con res :
    (* a waiting worker receives the oldest request and hashes it *)
    ws !! i = Some (mkWorker s Idle) →
    hashReqCh w !! k = Some r →
    step (mkSystem wk w k ws buf cl agg con res)
         (mkSystem wk w (S k)
            (<[i := afterRequest (hashRequest sha512 md5 (disks i) flags r s).2
                                 (hashRequest sha512 md5 (disks i) flags r s).1]> ws)
            buf cl agg con res)
| step_send i s p wk w k ws buf cl agg con res :
    (* replies <- reply, when the buffer has room *)
    ws !! i = Some (mkWorker s (Holding p)) →
    (length buf < repCap flags)%nat →
    step (mkSystem wk w k ws buf cl agg con res)
         (mkSystem wk w k (<[i := mkWorker s Idle]> ws) (buf ++ [p]) cl agg con res)
| step_exit i s w k ws buf cl agg con res :
    (* the request channel is closed and drained: the range loop ends *)
    ws !! i = Some (mkWorker s Idle) →
    k = length (hashReqCh w) →
    step (mkSystem WalkerDone w k ws buf cl agg con res)
         (mkSystem WalkerDone w k (<[i := mkWorker s Exited]> ws) buf cl agg con res)
| step_close_replies wk w k ws buf agg con res :
    (* workerGroup.Wait() returned: close(replies) *)
    Forall (λ x, w_phase x = Exited) ws →
    step (mkSystem wk w k ws buf false agg con res)
         (mkSystem wk w k ws buf true agg con res)
| step_consume p wk w k ws buf cl agg con :
    (* one iteration of the aggregator's loop *)
    step (mkSystem wk w k ws (p :: buf) cl agg con None)
         (mkSystem wk w k ws buf cl (aggregateStep agg p) (con ++ [p]) None)
| step_finish wk w k ws agg con :
    (* the reply channel is closed and drained: summary and return *)
    step (mkSystem wk w k ws [] true agg con None)
         (mkSystem wk w k ws [] true agg con
            (Some (aggFinish (hashingFiles w) agg))).

(** The walker is about to call [walkFn] on an entry without file
    information: the program panics. *)
Definition aboutToPanic (st : System) : Prop :=
  ∃ e rest, sys_walker st = Walking (e :: rest) ∧ entry_info e = None.

(** An upper bound on the number of steps still to come. *)
Definition workerWeight (w : Worker) : nat :=
  match w_phase w with
  | Idle => 1
  | Holding _ => 3
  | Exited => 0
  end.

Definition measure (st : System) : nat :=
  match sys_walker st with
  | Walking rest => 4 * length rest + 1
  | WalkerDone => 0
  end
  + 3 * (length (hashReqCh (sys_walk st)) - sys_received st)
  + sum_list (workerWeight <$> sys_workers st)
  + length (sys_replies st)
  + (if sys_repliesClosed st then 0 else 1)
  + match sys_result st with Some _ => 0 | None => 1 end.

(** What holds in every state the system reaches from [sysInit entries]. *)
Record sysInv (entries : list Entry) (st : System) : Prop := mkSysInv {
  inv_walked :
    ∃ visited, entries = visited ++ remaining (sys_walker st)
               ∧ walk flags visited walkInit = Returned (sys_walk st);
  inv_received :
    (sys_received st ≤ length (hashReqCh (sys_walk st))
     ≤ sys_received st + reqCap)%nat;
  inv_workers : length (sys_workers st) = Z.to_nat (Threads flags);
  inv_exited :
    ∀ x, x ∈ sys_workers st → w_phase x = Exited →
         sys_walker st = WalkerDone
         ∧ sys_received st = length (hashReqCh (sys_walk st));
  inv_closed :
    sys_repliesClosed st = true →
    Forall (λ x, w_phase x = Exited) (sys_workers st);
  inv_buffer : (length (sys_replies st) ≤ repCap flags)%nat;
  inv_agg : sys_agg st = aggregateLoop (sys_consumed st);
  inv_result :
    ∀ res, sys_result st = Some res →
           sys_repliesClosed st = true ∧ sys_replies st = []
           ∧ res = aggregateHashes (hashingFiles (sys_walk st)) (sys_consumed st)
}.

End System.

(** The reply to a request when the tree does not change during the
    scan: every read of a path yields [tree path]. *)
Definition answer (sha512 md5 : Hasher) (tree : string → FileRead)
    (flags : Flags) (request : FileHash) : option FileHash :=
  (hashRequest sha512 md5 (λ _, tree) flags request (mkIOState 0 [])).1.

(** On such a tree, the replies consumed, buffered or held by a worker
    are the answers to the requests received so far. *)
Definition conservedReplies (sha512 md5 : Hasher) (tree : string → FileRead)
    (flags : Flags) (st : System) : Prop :=
  sys_consumed st ++ sys_replies st ++ omap held (sys_workers st)
  ≡ₚ omap (answer sha512 md5 tree flags)
          (take (sys_received st) (hashReqCh (sys_walk st))).

(** A tree with two files of the same size (and, on [sampleDisk], the same
    contents), and flags asking for two workers. *)
Definition twinTree : list Entry :=
  [ mkEntry "/data/a" (Some (mkFileInfo false 300)) None;
    mkEntry "/data/b" (Some (mkFileInfo false 300)) None ].

Definition twoWorkers : Flags := mkFlags "." 256 2 false false.

(** ** Report *)

(** A reply whose fingerprint at least two replies carry. *)
Definition isShared (replies : list FileHash) (r : FileHash) : Prop :=
  (2 ≤ length (paths_of (Hash r) replies))%nat.

#[global] Instance isShared_dec (replies : list FileHash) (r : FileHash) :
  Decision (isShared replies r) :=
  decide (2 ≤ length (paths_of (Hash r) replies))%nat.

Section Report.

(** The verb [%q] of [fmt] on a string ([strconv.Quote]). *)
Variable Quote : string → string.

Definition newline : string := String (ascii_of_nat 10) EmptyString.

(** [reportCollisions], as the sequence of strings it prints; [buckets]
    are the entries of the table in the order in which the [range] over
    the map yields them. *)
Definition reportCollisions (buckets : list (string * list string))
  : list string :=
  flat_map (λ kv, flat_map (λ file, [" "; Quote file]) kv.2 ++ [newline])
           buckets.

(** What [main] prints once [aggregateHashes] returned. *)
Definition mainOutput (flags : Flags) (table : CollisionTable)
    (buckets : list (string * list string)) : list string :=
  if decide (size table = 0%nat) then []
  else if ListCollisions flags then reportCollisions buckets
  else [].

End Report.

(** * Properties *)

(** ** int64 arithmetic *)

Module Int64Facts.

Lemma wrap_in_range x : Int64.in_range x → Int64.wrap x = x.
Proof.
  unfold Int64.in_range, Int64.wrap, Int64.half, Int64.modulus. intros Hx.
  rewrite Z.mod_small; lia.
Qed.

Lemma wrap_add_l x y : Int64.wrap (Int64.wrap x + y) = Int64.wrap (x + y).
Proof.
  unfold Int64.wrap, Int64.half, Int64.modulus.
  replace ((x + 2 ^ 63) mod 2 ^ 64 - 2 ^ 63 + y + 2 ^ 63)
    with ((x + 2 ^ 63) mod 2 ^ 64 + y) by lia.
  rewrite Zplus_mod_idemp_l. do 2 f_equal. lia.
Qed.

Lemma wrap_add_r x y : Int64.wrap (x + Int64.wrap y) = Int64.wrap (x + y).
Proof. by rewrite Z.add_comm, wrap_add_l, Z.add_comm. Qed.

Lemma add_wrap3 a b c :
  Int64.add (Int64.add (Int64.wrap a) (Int64.wrap b)) (Int64.wrap c)
  = Int64.wrap (a + b + c).
Proof.
  unfold Int64.add. rewrite wrap_add_l, wrap_add_r.
  rewrite <- Z.add_assoc, wrap_add_l.
  rewrite (Z.add_comm (Int64.wrap b)), Z.add_assoc, wrap_add_r.
  f_equal. lia.
Qed.

Lemma incr_wrap x : Int64.incr (Int64.wrap x) = Int64.wrap (x + 1).
Proof. unfold Int64.incr, Int64.add. apply wrap_add_l. Qed.

End Int64Facts.

(** ** Aggregator: what the dictionaries hold *)

Lemma paths_of_snoc h seen r :
  paths_of h (seen ++ [r])
  = paths_of h seen ++ (if decide (Hash r = h) then [Pathname r] else []).
Proof.
  unfold paths_of. rewrite filter_app, fmap_app. f_equal.
  rewrite filter_cons, filter_nil. by destruct (decide (Hash r = h)).
Qed.

Lemma tracks_init : tracks aggInit [].
Proof. intros h. simpl. by rewrite !lookup_empty. Qed.

Lemma tracks_step st seen r :
  tracks st seen → tracks (aggregateStep st r) (seen ++ [r]).
Proof.
  intros Htr h. rewrite paths_of_snoc.
  destruct (Htr (Hash r)) as [Hc Hs].
  unfold aggregateStep. rewrite Hc, Hs.
  destruct (decide (Hash r = h)) as [<-|Hne].
  - rewrite length_app. simpl.
    destruct (paths_of (Hash r) seen) as [|p0 [|p1 ps]]; simpl in *;
      repeat case_decide; simpl; try lia;
      by rewrite ?lookup_insert_eq, ?lookup_delete_eq.
  - rewrite app_nil_r. destruct (Htr h) as [Hch Hsh].
    repeat case_decide; simpl;
      by rewrite ?lookup_insert_ne, ?lookup_delete_ne by done.
Qed.

Lemma tracks_fold rs : ∀ st seen,
  tracks st seen → tracks (fold_left aggregateStep rs st) (seen ++ rs).
Proof.
  induction rs as [|r rs IH]; intros st seen Htr; simpl.
  - by rewrite app_nil_r.
  - replace (seen ++ r :: rs) with ((seen ++ [r]) ++ rs) by by rewrite <- app_assoc.
    apply IH, tracks_step, Htr.
Qed.

Lemma tracks_loop rs : tracks (aggregateLoop rs) rs.
Proof. apply (tracks_fold rs aggInit []), tracks_init. Qed.

Lemma aggregateLoop_snoc rs r :
  aggregateLoop (rs ++ [r]) = aggregateStep (aggregateLoop rs) r.
Proof. unfold aggregateLoop. by rewrite fold_left_app. Qed.

Lemma collisions_loop rs h bucket :
  collisions (aggregateLoop rs) !! h = Some bucket →
  bucket = paths_of h rs ∧ (2 ≤ length bucket)%nat.
Proof.
  destruct (tracks_loop rs h) as [-> _]. case_decide; [|done].
  by intros [= <-].
Qed.

Lemma singles_loop rs h lone :
  singles (aggregateLoop rs) !! h = Some lone →
  lone = paths_of h rs ∧ length lone = 1%nat.
Proof.
  destruct (tracks_loop rs h) as [_ ->]. case_decide; [|done].
  by intros [= <-].
Qed.

(** C1: whatever finite sequence of results the aggregator consumes, every
    bucket of the table it returns holds at least two paths, and so does
    every bucket of the collisions map after each single insertion step
    (the state after [n] steps is the loop run on the first [n] results). *)
Theorem collision_buckets_hold_two_paths (hashingFiles : Z) (replies : list FileHash) :
  map_Forall (λ _ bucket, (2 ≤ length bucket)%nat)
             (aggregateHashes hashingFiles replies).1
  ∧ ∀ n, map_Forall (λ _ bucket, (2 ≤ length bucket)%nat)
                    (collisions (aggregateLoop (take n replies)))
         ∧ aggregateLoop (take (S n) replies)
           = from_option (aggregateStep (aggregateLoop (take n replies)))
                         (aggregateLoop (take n replies)) (replies !! n).
Proof.
  split; [|intros n; split].
  - intros h bucket Hb. simpl in Hb. by apply collisions_loop in Hb as [_ ?].
  - intros h bucket Hb. by apply collisions_loop in Hb as [_ ?].
  - destruct (replies !! n) as [r|] eqn:Hn; simpl.
    + rewrite (take_S_r _ _ _ Hn). apply aggregateLoop_snoc.
    + apply lookup_ge_None in Hn. by rewrite !take_ge by lia.
Qed.

(** C10: at every step of the aggregation the key sets of the singles map
    and of the collisions map are disjoint, and every entry of the singles
    map holds exactly one path. *)
Theorem singles_and_collisions_disjoint (replies : list FileHash) (n : nat) :
  let st := aggregateLoop (take n replies) in
  dom (singles st) ## dom (collisions st)
  ∧ map_Forall (λ _ lone, length lone = 1%nat) (singles st).
Proof.
  intros st. split.
  - intros h [lone Hs]%elem_of_dom [bucket Hc]%elem_of_dom.
    apply singles_loop in Hs as [-> Hs]. apply collisions_loop in Hc as [-> Hc].
    lia.
  - intros h lone Hs. by apply singles_loop in Hs as [_ ?].
Qed.

(** ** Aggregator: the decision rule *)

Lemma aggregateStep_concretize st r :
  aggregateStep (concretize st) r
  = concretize (decisionRule st (Hash r) (Pathname r)).
Proof.
  unfold aggregateStep, decisionRule, concretize. simpl.
  destruct (rule_collisions st !! Hash r) as [bucket|]; [done|].
  rewrite lookup_fmap.
  destruct (rule_singles st !! Hash r) as [stored|]; simpl.
  - by rewrite fmap_delete.
  - by rewrite fmap_insert.
Qed.

Lemma aggregateLoop_concretize rs :
  aggregateLoop rs = concretize (ruleLoop rs).
Proof.
  induction rs as [|r rs IH] using rev_ind.
  - unfold aggregateLoop, ruleLoop, concretize, aggInit. simpl.
    by rewrite fmap_empty.
  - rewrite aggregateLoop_snoc, IH, aggregateStep_concretize.
    unfold ruleLoop. by rewrite fold_left_app.
Qed.

(** C2: each iteration of the aggregator's loop is the three-case rule of
    the specification: on the states the loop reaches, one step of the code
    is one application of [decisionRule] (append to an existing bucket;
    else promote the stored single together with the new path and remove
    it from singles; else record the path as the sole single), and so the
    whole loop is the rule folded over the replies. *)
Theorem aggregator_applies_decision_rule (replies : list FileHash) (r : FileHash) :
  aggregateLoop replies = concretize (ruleLoop replies)
  ∧ aggregateStep (aggregateLoop replies) r
    = concretize (decisionRule (ruleLoop replies) (Hash r) (Pathname r)).
Proof.
  split; [apply aggregateLoop_concretize|].
  by rewrite aggregateLoop_concretize, aggregateStep_concretize.
Qed.

(** ** Aggregator: independence of the arrival order *)

Lemma paths_of_Permutation h (rs1 rs2 : list FileHash) :
  rs1 ≡ₚ rs2 → paths_of h rs1 ≡ₚ paths_of h rs2.
Proof. intros Hp. unfold paths_of. by rewrite Hp. Qed.

Lemma collisions_loop_is_Some rs h :
  is_Some (collisions (aggregateLoop rs) !! h) ↔ (2 ≤ length (paths_of h rs))%nat.
Proof.
  destruct (tracks_loop rs h) as [-> _]. case_decide.
  - split; [done|]. by eexists.
  - split; [by intros [? ?]|done].
Qed.

(** C3: aggregating two permutations of the same results gives tables with
    the same keys and, under each key, buckets that are permutations of one
    another (hence hold the same set of paths); only the order of the paths
    inside a bucket may differ. *)
Theorem aggregation_order_insensitive (hf1 hf2 : Z) (rs1 rs2 : list FileHash) :
  rs1 ≡ₚ rs2 →
  let t1 := (aggregateHashes hf1 rs1).1 in
  let t2 := (aggregateHashes hf2 rs2).1 in
  dom t1 = dom t2
  ∧ ∀ h b1 b2, t1 !! h = Some b1 → t2 !! h = Some b2 →
               b1 ≡ₚ b2 ∧ ∀ p, p ∈ b1 ↔ p ∈ b2.
Proof.
  intros Hp t1 t2. subst t1 t2. simpl. split.
  - apply set_eq. intros h. rewrite !elem_of_dom, !collisions_loop_is_Some.
    by rewrite (Permutation_length (paths_of_Permutation h _ _ Hp)).
  - intros h b1 b2 [-> _]%collisions_loop [-> _]%collisions_loop.
    pose proof (paths_of_Permutation h _ _ Hp) as Hb.
    split; [done|]. intros p. by rewrite Hb.
Qed.

Lemma aggregation_order_insensitive_witness :
  let a := mkFileHash "t/a" 300 "0000000000000300.ab" in
  let b := mkFileHash "t/b" 300 "0000000000000300.ab" in
  let c := mkFileHash "t/c" 512 "0000000000000512.cd" in
  let t1 := (aggregateHashes 3 [a; b; c]).1 in
  let t2 := (aggregateHashes 3 [c; b; a]).1 in
  dom t1 = dom t2
  ∧ ∀ h b1 b2, t1 !! h = Some b1 → t2 !! h = Some b2 →
               b1 ≡ₚ b2 ∧ ∀ p, p ∈ b1 ↔ p ∈ b2.
Proof.
  intros a b c.
  apply (aggregation_order_insensitive 3 3 [a; b; c] [c; b; a]).
  exact (Permutation_rev [a; b; c]).
Defined.

Example aggregation_order_visible :
  let a := mkFileHash "t/a" 300 "0000000000000300.ab" in
  let b := mkFileHash "t/b" 300 "0000000000000300.ab" in
  let c := mkFileHash "t/c" 512 "0000000000000512.cd" in
  (aggregateHashes 3 [a; b; c]).1 !! "0000000000000300.ab" = Some ["t/a"; "t/b"]
  ∧ (aggregateHashes 3 [c; b; a]).1 !! "0000000000000300.ab" = Some ["t/b"; "t/a"]
  ∧ (aggregateHashes 3 [c; b; a]).1 !! "0000000000000512.cd" = None.
Proof. by vm_compute. Qed.

(** ** Formatting *)

Lemma chars_append (a b : string) :
  list_ascii_of_string (a +:+ b) = list_ascii_of_string a ++ list_ascii_of_string b.
Proof. induction a as [|c a IH]; simpl; [done|]. by rewrite IH. Qed.

Lemma chars_length (s : string) :
  String.length s = length (list_ascii_of_string s).
Proof. induction s as [|c s IH]; simpl; [done|]. by rewrite IH. Qed.

Lemma chars_zeros n : list_ascii_of_string (zeros n) = replicate n "0"%char.
Proof. induction n as [|n IH]; simpl; [done|]. by rewrite IH. Qed.

Lemma ReplaceAll_chars s old new :
  list_ascii_of_string (ReplaceAll s old new)
  = (λ c, if Ascii.eqb c old then new else c) <$> list_ascii_of_string s.
Proof. induction s as [|c s IH]; simpl; [done|]. by rewrite IH. Qed.

Lemma ReplaceAll_removes s old new :
  old ≠ new → old ∉ list_ascii_of_string (ReplaceAll s old new).
Proof.
  intros Hne. rewrite ReplaceAll_chars. intros (c & Hc & _)%list_elem_of_fmap.
  destruct (Ascii.eqb c old) eqn:E; [done|].
  apply Ascii.eqb_neq in E. done.
Qed.

Lemma hexdigit_lower (v : byte) :
  isLowerHex (hexdigit (N.shiftr (Byte.to_N v) 4)) = true
  ∧ isLowerHex (hexdigit (N.land (Byte.to_N v) 15)) = true.
Proof. by destruct v; vm_compute. Qed.

Lemma EncodeToString_lower (src : list byte) :
  allChars isLowerHex (EncodeToString src) = true
  ∧ String.length (EncodeToString src) = (2 * length src)%nat.
Proof.
  unfold allChars. induction src as [|v src [IH1 IH2]]; simpl; [done|].
  destruct (hexdigit_lower v) as [-> ->]. simpl. split; [done|]. lia.
Qed.

(** The digit loop, for a magnitude the fuel covers: the characters put
    in front of [acc] are decimal digits, they read back as [u], and
    they are no more than [k] when [u < 10 ^ k]. *)
Lemma utoa_fuel_digits fuel : ∀ (u : N) (acc : string),
  (1 ≤ fuel)%nat → (u < 10 ^ N.of_nat fuel)%N →
  ∃ ds : list ascii,
    list_ascii_of_string (utoa_fuel fuel u acc) = ds ++ list_ascii_of_string acc
    ∧ forallb isDigit ds = true
    ∧ fold_left (λ a c, (10 * a + (N_of_ascii c - 48))%N) ds 0%N = u
    ∧ (1 ≤ length ds)%nat
    ∧ ∀ k : nat, (1 ≤ k)%nat → (u < 10 ^ N.of_nat k)%N → (length ds ≤ k)%nat.
Proof.
  induction fuel as [|fuel IH]; intros u acc Hfuel Hu; [lia|].
  simpl. destruct (u <? 10)%N eqn:Hlt.
  - apply N.ltb_lt in Hlt. exists [ascii_of_N (48 + u)]. simpl.
    assert (N_of_ascii (ascii_of_N (48 + u)) = (48 + u)%N) as Hc
      by (apply N_ascii_embedding; lia).
    unfold isDigit. rewrite Hc.
    repeat split; try lia.
    + rewrite andb_true_r. apply andb_true_iff.
      split; apply N.leb_le; lia.
  - apply N.ltb_ge in Hlt.
    assert (u / 10 < 10 ^ N.of_nat fuel)%N as Hq.
    { apply N.Div0.div_lt_upper_bound.
      rewrite Nat2N.inj_succ, N.pow_succ_r' in Hu. done. }
    assert (1 ≤ fuel)%nat as Hfuel'.
    { destruct fuel; [|lia]. change (10 ^ N.of_nat 1)%N with 10%N in Hu. lia. }
    destruct (IH (u / 10)%N (String (ascii_of_N (48 + u mod 10)) acc) Hfuel' Hq)
      as (ds & Heq & Hdig & Hval & Hlen & Hbound).
    pose proof (N.mod_lt u 10 ltac:(lia)) as Hm.
    pose proof (N.div_mod u 10 ltac:(lia)) as Hdm.
    set (q := (u / 10)%N) in *. set (m := (u mod 10)%N) in *.
    assert (N_of_ascii (ascii_of_N (48 + m)) = (48 + m)%N) as Hc
      by (apply N_ascii_embedding; clearbody m; lia).
    exists (ds ++ [ascii_of_N (48 + m)]).
    rewrite Heq. simpl. rewrite <- app_assoc. simpl.
    rewrite forallb_app, Hdig, fold_left_app, Hval, length_app. simpl.
    unfold isDigit. rewrite Hc. clearbody q m.
    repeat split; try lia.
    + rewrite andb_true_r. apply andb_true_iff.
      split; apply N.leb_le; lia.
    + intros [|[|k]] Hk Huk; try lia.
      assert (length ds ≤ S k)%nat; [|lia].
      apply Hbound; [lia|].
      rewrite Nat2N.inj_succ, N.pow_succ_r' in Huk.
      set (X := (10 ^ N.of_nat (S k))%N) in *. clearbody X. lia.
Qed.

(** [%016d] on a non-negative int64: nothing but decimal digits, at
    least 16 of them, whose value is the number; exactly 16 below
    [10 ^ 16]. *)
Lemma fmt_016d_nonneg (n : Z) :
  0 <= n < Int64.half →
  allChars isDigit (fmt_016d n) = true
  ∧ decimalValue (fmt_016d n) = Z.to_N n
  ∧ (16 ≤ String.length (fmt_016d n))%nat
  ∧ (n < 10 ^ 16 → String.length (fmt_016d n) = 16%nat).
Proof.
  intros [Hn0 Hn]. unfold Int64.half in Hn.
  destruct (utoa_fuel_digits 20 (Z.to_N n) EmptyString ltac:(lia))
    as (ds & Heq & Hdig & Hval & Hlen & Hbound).
  { change (10 ^ N.of_nat 20)%N with (Z.to_N (10 ^ 20)). lia. }
  fold (utoa (Z.to_N n)) in Heq. simpl in Heq. rewrite app_nil_r in Heq.
  assert (list_ascii_of_string (fmt_016d n)
          = replicate (16 - length ds) "0"%char ++ ds) as Hchars.
  { unfold fmt_016d. rewrite (proj2 (Z.ltb_ge n 0)) by done.
    rewrite Z.abs_eq by done.
    by rewrite !chars_append, chars_zeros, chars_length, Heq. }
  unfold allChars, decimalValue. rewrite chars_length, Hchars.
  rewrite forallb_app, fold_left_app, Hdig, length_app, length_replicate.
  assert (∀ k, forallb isDigit (replicate k "0"%char) = true) as ->
    by (induction k; simpl; auto).
  assert (∀ k, fold_left (λ a c, (10 * a + (N_of_ascii c - 48))%N)
                 (replicate k "0"%char) 0%N = 0%N) as ->
    by (induction k; simpl; auto).
  repeat split; try done; try lia.
  intros H16. specialize (Hbound 16%nat ltac:(lia)).
  assert (length ds ≤ 16)%nat; [|lia].
  apply Hbound. change (10 ^ N.of_nat 16)%N with (Z.to_N (10 ^ 16)). lia.
Qed.

(** ** Hash worker *)

Section Worker.

Variable sha512 md5 : Hasher.
Variable disk : Disk.
Variable flags : Flags.

Local Abbreviation runRequest := (hashRequest sha512 md5 disk flags).
Local Abbreviation runWorker := (hashingWorker sha512 md5 disk flags).

Lemma hashData_run pathname hasher s :
  hashData disk pathname hasher s
  = (match disk (opens s) pathname with
     | OpenFails err => Err err
     | CopyFails _ err => Err err
     | CopyDone chunks => Ok (hexDigest hasher chunks)
     end,
     mkIOState (S (opens s)) (logged s)).
Proof.
  unfold hashData, bind, openAndCopy, ret.
  by destruct (disk (opens s) pathname).
Qed.

Lemma hexDigest_lower hasher chunks :
  allChars isLowerHex (hexDigest hasher chunks) = true.
Proof. apply EncodeToString_lower. Qed.

(** C4: a request the worker completes comes back as the same record with
    the path rewritten (every backslash turned into a forward slash), the
    size untouched, and the fingerprint made of the size under [%016d], a
    dot, the primary digest in lowercase hexadecimal and, exactly in
    thorough mode, a further dot and the secondary digest in lowercase
    hexadecimal.  The size part consists of decimal digits only, reads
    back as the size, and is 16 characters long for sizes below 10^16. *)
Theorem hashRequest_reply (request reply : FileHash) (s s' : IOState) :
  runRequest request s = (Some reply, s') →
  let pathname := ReplaceAll (Pathname request) backslash slash in
  Pathname reply = pathname
  ∧ list_ascii_of_string pathname
    = (λ c, if Ascii.eqb c backslash then slash else c)
        <$> list_ascii_of_string (Pathname request)
  ∧ Size reply = Size request
  ∧ (∃ chunks,
       disk (opens s) pathname = CopyDone chunks
       ∧ allChars isLowerHex (hexDigest sha512 chunks) = true
       ∧ if Thorough flags then
           ∃ chunks2,
             disk (S (opens s)) pathname = CopyDone chunks2
             ∧ allChars isLowerHex (hexDigest md5 chunks2) = true
             ∧ Hash reply
               = fmt_016d (Size request) +:+ "." +:+ hexDigest sha512 chunks
                   +:+ "." +:+ hexDigest md5 chunks2
         else
           Hash reply
           = fmt_016d (Size request) +:+ "." +:+ hexDigest sha512 chunks)
  ∧ (0 <= Size request < Int64.half →
     allChars isDigit (fmt_016d (Size request)) = true
     ∧ decimalValue (fmt_016d (Size request)) = Z.to_N (Size request)
     ∧ (16 ≤ String.length (fmt_016d (Size request)))%nat
     ∧ (Size request < 10 ^ 16 →
        String.length (fmt_016d (Size request)) = 16%nat)).
Proof.
  intros Hrun pathname.
  unfold hashRequest in Hrun. fold pathname in Hrun.
  unfold bind at 1 in Hrun. rewrite hashData_run in Hrun.
  destruct (disk (opens s) pathname) as [err|cs err|chunks] eqn:Hfirst;
    try (by inversion Hrun).
  assert (Pathname reply = pathname ∧ Size reply = Size request
          ∧ if Thorough flags then
              ∃ chunks2,
                disk (S (opens s)) pathname = CopyDone chunks2
                ∧ Hash reply
                  = fmt_016d (Size request) +:+ "." +:+ hexDigest sha512 chunks
                      +:+ "." +:+ hexDigest md5 chunks2
            else
              Hash reply
              = fmt_016d (Size request) +:+ "." +:+ hexDigest sha512 chunks)
    as (Hp & Hs & Hh).
  { destruct (Thorough flags).
    - unfold bind at 1 in Hrun. rewrite hashData_run in Hrun. simpl in Hrun.
      destruct (disk (S (opens s)) pathname) as [err|cs err|chunks2] eqn:Hsnd;
        try (by inversion Hrun).
      inversion Hrun; subst; simpl. repeat split. by exists chunks2.
    - inversion Hrun; subst; simpl. done. }
  split; [done|]. split; [apply ReplaceAll_chars|]. split; [done|]. split.
  - exists chunks. split; [done|]. split; [apply hexDigest_lower|].
    destruct (Thorough flags); [|done].
    destruct Hh as (chunks2 & ? & ?). exists chunks2.
    split; [done|]. split; [apply hexDigest_lower | done].
  - apply fmt_016d_nonneg.
Qed.

Lemma hashingWorker_cons (r : FileHash) (rest : list FileHash) (s : IOState) :
  runWorker (r :: rest) s
  = (match (runRequest r s).1 with
     | Some reply => reply :: (runWorker rest (runRequest r s).2).1
     | None => (runWorker rest (runRequest r s).2).1
     end,
     (runWorker rest (runRequest r s).2).2).
Proof.
  simpl. unfold bind, ret.
  destruct (runRequest r s) as [reply s1]. simpl.
  by destruct (runWorker rest s1).
Qed.

Lemma hashingWorker_app (before after : list FileHash) (s0 : IOState) :
  runWorker (before ++ after) s0
  = ((runWorker before s0).1 ++ (runWorker after (runWorker before s0).2).1,
     (runWorker after (runWorker before s0).2).2).
Proof.
  revert s0. induction before as [|r before IH]; intros s0.
  - simpl. unfold ret. simpl. by destruct (runWorker after s0).
  - rewrite <- app_comm_cons, !hashingWorker_cons, IH. simpl.
    by destruct (runRequest r s0).1.
Qed.

Lemma hashRequest_fails (request : FileHash) (s : IOState) :
  digestFails disk flags request s = true →
  ∃ s',
    runRequest request s = (None, s')
    ∧ opens s'
      = (opens s
         + if readFails disk (opens s)
                (ReplaceAll (Pathname request) backslash slash)
           then 1 else 2)%nat
    ∧ length (logged s') = S (length (logged s)).
Proof.
  unfold digestFails, readFails, hashRequest.
  set (pathname := ReplaceAll (Pathname request) backslash slash).
  unfold bind at 1. rewrite hashData_run.
  destruct (disk (opens s) pathname) as [err|cs err|chunks]; simpl.
  1,2: intros _; eexists; split; [reflexivity|]; simpl;
       rewrite length_app; simpl; split; lia.
  destruct (Thorough flags); simpl; [|done].
  unfold bind at 1. rewrite hashData_run. simpl.
  destruct (disk (S (opens s)) pathname) as [err|cs err|chunks2]; simpl;
    [| |done].
  all: intros _; eexists; split; [reflexivity|]; simpl;
       rewrite length_app; simpl; split; lia.
Qed.

Lemma hashRequest_succeeds (request : FileHash) (s : IOState) :
  digestFails disk flags request s = false →
  ∃ reply s', runRequest request s = (Some reply, s').
Proof.
  unfold digestFails, readFails, hashRequest.
  set (pathname := ReplaceAll (Pathname request) backslash slash).
  unfold bind at 1. rewrite hashData_run.
  destruct (disk (opens s) pathname) as [err|cs err|chunks]; simpl;
    [done|done|].
  destruct (Thorough flags); simpl; [|by eexists _, _].
  unfold bind at 1. rewrite hashData_run. simpl.
  destruct (disk (S (opens s)) pathname) as [err|cs err|chunks2]; simpl;
    [done|done|]. by eexists _, _.
Qed.

(** C6: when the digest computation of a request fails (the file cannot be
    opened or a read fails, for the primary digest or, in thorough mode,
    for the secondary one), [hashRequest] returns nil, having opened the
    file once per digest it attempted (no retry); the worker sends no
    reply for it and goes on with the requests that follow, so that the
    replies, and with them the singles map and the collision table, are
    those of the other requests alone. *)
Theorem failed_request_is_dropped
    (before after : list FileHash) (request : FileHash) (s0 : IOState) :
  digestFails disk flags request (runWorker before s0).2 = true →
  ∃ s',
    runRequest request (runWorker before s0).2 = (None, s')
    ∧ opens s'
      = (opens (runWorker before s0).2
         + if readFails disk (opens (runWorker before s0).2)
                (ReplaceAll (Pathname request) backslash slash)
           then 1 else 2)%nat
    ∧ runWorker (before ++ request :: after) s0
      = ((runWorker before s0).1 ++ (runWorker after s').1,
         (runWorker after s').2)
    ∧ aggregateLoop (runWorker (before ++ request :: after) s0).1
      = fold_left aggregateStep (runWorker after s').1
                  (aggregateLoop (runWorker before s0).1).
Proof.
  intros Hfail.
  destruct (hashRequest_fails request _ Hfail) as (s' & Hreq & Hopens & _).
  exists s'. split; [done|]. split; [done|].
  assert (runWorker (before ++ request :: after) s0
          = ((runWorker before s0).1 ++ (runWorker after s').1,
             (runWorker after s').2)) as Heq.
  { rewrite hashingWorker_app, hashingWorker_cons, Hreq. done. }
  split; [done|].
  rewrite Heq. simpl. unfold aggregateLoop. by rewrite fold_left_app.
Qed.

End Worker.

Lemma hashRequest_reply_witness :
  ∃ reply s',
    hashRequest sumHasher lenHasher sampleDisk
      (mkFlags "." 256 9 true false)
      (mkFileHash "C:\data\a.bin" 300 "") (mkIOState 0 []) = (Some reply, s')
    ∧ Pathname reply = "C:/data/a.bin"
    ∧ Size reply = 300
    ∧ String.length (fmt_016d 300) = 16%nat.
Proof.
  eexists _, _. split; [reflexivity|].
  destruct (hashRequest_reply sumHasher lenHasher sampleDisk
              (mkFlags "." 256 9 true false)
              (mkFileHash "C:\data\a.bin" 300 "") _ (mkIOState 0 []) _ eq_refl)
    as (Hp & _ & Hs & _ & Hfmt).
  split; [exact Hp|]. split; [exact Hs|].
  destruct Hfmt as (_ & _ & _ & Hlen); [by vm_compute|].
  apply Hlen. reflexivity.
Defined.

Example hashRequest_sample :
  (hashRequest sumHasher lenHasher sampleDisk
     (mkFlags "." 256 9 true false)
     (mkFileHash "C:\data\a.bin" 300 "") (mkIOState 0 [])).1
  = Some (mkFileHash "C:/data/a.bin" 300 "0000000000000300.26.03").
Proof. reflexivity. Qed.

Lemma failed_request_is_dropped_witness :
  let good1 := mkFileHash "/data/a" 300 "" in
  let gone := mkFileHash "/gone/b" 300 "" in
  let good2 := mkFileHash "/data/c" 300 "" in
  let run := hashingWorker sumHasher lenHasher sampleDisk defaultFlags in
  let s0 := mkIOState 0 [] in
  ∃ s',
    hashRequest sumHasher lenHasher sampleDisk defaultFlags gone (run [good1] s0).2
    = (None, s')
    ∧ opens s'
      = (opens (run [good1] s0).2
         + if readFails sampleDisk (opens (run [good1] s0).2)
                (ReplaceAll (Pathname gone) backslash slash)
           then 1 else 2)%nat
    ∧ run ([good1] ++ gone :: [good2]) s0
      = ((run [good1] s0).1 ++ (run [good2] s').1, (run [good2] s').2)
    ∧ aggregateLoop (run ([good1] ++ gone :: [good2]) s0).1
      = fold_left aggregateStep (run [good2] s').1
                  (aggregateLoop (run [good1] s0).1).
Proof.
  intros good1 gone good2 run s0.
  apply (failed_request_is_dropped sumHasher lenHasher sampleDisk defaultFlags
           [good1] [good2] gone s0).
  reflexivity.
Defined.

Example worker_skips_unreadable_file :
  (hashingWorker sumHasher lenHasher sampleDisk defaultFlags
     [mkFileHash "/data/a" 300 ""; mkFileHash "/gone/b" 300 "";
      mkFileHash "/data/c" 300 ""] (mkIOState 0 []))
  = ([mkFileHash "/data/a" 300 "0000000000000300.26";
      mkFileHash "/data/c" 300 "0000000000000300.26"],
     mkIOState 3 ["error reading /gone/b: no such file or directory"]).
Proof. reflexivity. Qed.

(** ** Directory walker *)

Section Walker.

Variable flags : Flags.

Lemma walkFn_directory path info fileErr st :
  IsDir info = true → walkFn flags path (Some info) fileErr st = Returned st.
Proof. intros Hd. unfold walkFn. by rewrite Hd. Qed.

Lemma walkFn_error path info err st :
  IsDir info = false →
  walkFn flags path (Some info) (Some err) st
  = Returned (mkWalkState (Int64.incr (totalFiles st)) (underSizedFiles st)
                          (hashingFiles st) (hashReqCh st)).
Proof. intros Hd. unfold walkFn. by rewrite Hd. Qed.

Lemma walkFn_undersized path info st :
  IsDir info = false → tooSmall flags (info_Size info) = true →
  walkFn flags path (Some info) None st
  = Returned (mkWalkState (Int64.incr (totalFiles st))
                          (Int64.incr (underSizedFiles st))
                          (hashingFiles st) (hashReqCh st)).
Proof. intros Hd Hs. unfold walkFn, tooSmall in *. by rewrite Hd, Hs. Qed.

Lemma walkFn_hashed path info st :
  IsDir info = false → tooSmall flags (info_Size info) = false →
  walkFn flags path (Some info) None st
  = Returned (mkWalkState (Int64.incr (totalFiles st)) (underSizedFiles st)
               (Int64.incr (hashingFiles st))
               (hashReqCh st ++ [mkFileHash path (info_Size info) ""])).
Proof. intros Hd Hs. unfold walkFn, tooSmall in *. by rewrite Hd, Hs. Qed.

End Walker.

Lemma checkFlags_threshold (raw flags : Flags) :
  checkFlags raw = Returned flags →
  MinBytes flags = Z.max 0 (MinBytes raw) ∧ 1 <= Threads flags.
Proof.
  unfold checkFlags.
  destruct (Threads raw <? 1) eqn:Ht; [done|]. apply Z.ltb_ge in Ht.
  destruct (MinBytes raw <? 0) eqn:Hm; intros [= <-]; simpl.
  - apply Z.ltb_lt in Hm. lia.
  - apply Z.ltb_ge in Hm. lia.
Qed.

Lemma tooSmall_checked (raw flags : Flags) (size : Z) :
  checkFlags raw = Returned flags →
  tooSmall flags size = false ↔ 0 < size ∧ Z.max 0 (MinBytes raw) <= size.
Proof.
  intros [Hmin _]%checkFlags_threshold. unfold tooSmall. rewrite Hmin.
  rewrite orb_false_iff, Z.eqb_neq, Z.ltb_ge. lia.
Qed.

(** C5: with the flags as [main] hands them over (a negative minimum is
    clamped to 0), the callback enqueues a request for an entry if and only
    if the entry is not a directory, carries no access error, and its size
    is strictly positive and at least the threshold; the request holds the
    path, the size and an empty fingerprint.  An entry that fails only the
    size test is counted as undersized and nothing is enqueued; a file of
    size 0 fails that test whatever the threshold. *)
Theorem walkFn_enqueues_iff (raw flags : Flags) (path : string)
    (info : option FileInfo) (fileErr : option string) (st : WalkState) :
  checkFlags raw = Returned flags →
  let threshold := Z.max 0 (MinBytes raw) in
  ((∃ st' request,
      walkFn flags path info fileErr st = Returned st'
      ∧ hashReqCh st' = hashReqCh st ++ [request])
   ↔ (∃ i, info = Some i ∧ IsDir i = false ∧ fileErr = None
           ∧ 0 < info_Size i ∧ threshold <= info_Size i))
  ∧ (∀ i, info = Some i → IsDir i = false → fileErr = None →
          0 < info_Size i ∧ threshold <= info_Size i →
          walkFn flags path info fileErr st
          = Returned (mkWalkState (Int64.incr (totalFiles st))
                        (underSizedFiles st) (Int64.incr (hashingFiles st))
                        (hashReqCh st ++ [mkFileHash path (info_Size i) ""])))
  ∧ (∀ i, info = Some i → IsDir i = false → fileErr = None →
          ¬ (0 < info_Size i ∧ threshold <= info_Size i) →
          walkFn flags path info fileErr st
          = Returned (mkWalkState (Int64.incr (totalFiles st))
                        (Int64.incr (underSizedFiles st)) (hashingFiles st)
                        (hashReqCh st)))
  ∧ (∀ i, info = Some i → info_Size i = 0 →
          ∀ st', walkFn flags path info fileErr st = Returned st' →
                 hashReqCh st' = hashReqCh st).
Proof.
  intros Hflags threshold.
  pose proof (λ size, tooSmall_checked raw flags size Hflags) as Hsize.
  fold threshold in Hsize.
  assert (∀ (l : list FileHash) x, l ≠ l ++ [x]) as Hgrow.
  { intros l x Hl. apply (f_equal length) in Hl.
    rewrite length_app in Hl. simpl in Hl. lia. }
  split; [|split; [|split]].
  - split.
    + intros (st' & request & Hrun & Hq).
      destruct info as [i|]; [|done]. exists i.
      destruct (IsDir i) eqn:Hd.
      { rewrite walkFn_directory in Hrun by done.
        injection Hrun as <-. by apply Hgrow in Hq. }
      destruct fileErr as [err|].
      { rewrite walkFn_error in Hrun by done.
        injection Hrun as <-. by apply Hgrow in Hq. }
      destruct (tooSmall flags (info_Size i)) eqn:Hs.
      { rewrite walkFn_undersized in Hrun by done.
        injection Hrun as <-. by apply Hgrow in Hq. }
      apply Hsize in Hs. done.
    + intros (i & -> & Hd & -> & Hpos).
      apply Hsize in Hpos. rewrite walkFn_hashed by done.
      by eexists _, _.
  - intros i -> Hd -> Hpos. apply Hsize in Hpos. by apply walkFn_hashed.
  - intros i -> Hd -> Hpos. apply walkFn_undersized; [done|].
    destruct (tooSmall flags (info_Size i)) eqn:Hs; [done|].
    by apply Hsize in Hs.
  - intros i -> Hzero st' Hrun.
    destruct (IsDir i) eqn:Hd.
    { rewrite walkFn_directory in Hrun by done. by injection Hrun as <-. }
    destruct fileErr as [err|].
    { rewrite walkFn_error in Hrun by done. by injection Hrun as <-. }
    rewrite walkFn_undersized in Hrun; [by injection Hrun as <-|done|].
    unfold tooSmall. by rewrite Hzero.
Qed.

Lemma walkFn_enqueues_iff_witness :
  (∃ st' request,
      walkFn (mkFlags "." 0 9 false false) "/data/a"
             (Some (mkFileInfo false 300)) None walkInit = Returned st'
      ∧ hashReqCh st' = hashReqCh walkInit ++ [request])
  ↔ (∃ i, Some (mkFileInfo false 300) = Some i ∧ IsDir i = false
          ∧ @None string = None
          ∧ 0 < info_Size i ∧ Z.max 0 (-5) <= info_Size i).
Proof.
  apply (walkFn_enqueues_iff (mkFlags "." (-5) 9 false false)
           (mkFlags "." 0 9 false false) "/data/a"
           (Some (mkFileInfo false 300)) None walkInit).
  reflexivity.
Defined.

Example zero_byte_file_with_zero_threshold :
  walkFn (mkFlags "." 0 9 false false) "/data/empty"
         (Some (mkFileInfo false 0)) None walkInit
  = Returned (mkWalkState 1 1 0 []).
Proof. reflexivity. Qed.

(** ** Counters of a walk *)

Lemma countEntries_cons P e es :
  countEntries P (e :: es) = (if P e then 1 else 0) + countEntries P es.
Proof.
  unfold countEntries. rewrite filter_cons.
  destruct (P e); case_decide; try done; simpl length; lia.
Qed.

Lemma countEntries_bounds P es :
  0 <= countEntries P es <= Z.of_nat (length es).
Proof.
  unfold countEntries. pose proof (length_filter (λ e, P e = true) es). lia.
Qed.

(** Every non-directory entry is in exactly one of the three classes. *)
Lemma countEntries_partition flags es :
  countEntries isFile es
  = countEntries (isUndersized flags) es + countEntries (isHashed flags) es
    + countEntries isErrorSkip es.
Proof.
  induction es as [|e es IH]; [done|].
  rewrite !countEntries_cons, IH.
  unfold isUndersized, isHashed, isErrorSkip.
  destruct (isFile e); simpl; [|lia].
  destruct (entry_err e) as [err|]; simpl;
    destruct (tooSmall flags (entrySize e)); simpl; lia.
Qed.

Lemma isFile_mk path info err :
  isFile (mkEntry path (Some info) err) = negb (IsDir info).
Proof. done. Qed.

Lemma isUndersized_mk flags path info err :
  isUndersized flags (mkEntry path (Some info) err)
  = negb (IsDir info) && bool_decide (err = None)
    && tooSmall flags (info_Size info).
Proof. done. Qed.

Lemma isHashed_mk flags path info err :
  isHashed flags (mkEntry path (Some info) err)
  = negb (IsDir info) && bool_decide (err = None)
    && negb (tooSmall flags (info_Size info)).
Proof. done. Qed.

Local Ltac class_of_entry Hd Hs :=
  rewrite ?Hd, ?Hs; simpl; repeat case_bool_decide; simpl; done || lia.

Lemma walk_cons flags e es st :
  walk flags (e :: es) st
  = match walkFn flags (entry_path e) (entry_info e) (entry_err e) st with
    | Returned st' => walk flags es st'
    | Panicked => Panicked
    end.
Proof. done. Qed.

(** The counters after a walk that returned, from counters that stand for
    [T], [U] and [H]. *)
Lemma walk_counters flags es : ∀ st st' T U H,
  totalFiles st = Int64.wrap T →
  underSizedFiles st = Int64.wrap U →
  hashingFiles st = Int64.wrap H →
  walk flags es st = Returned st' →
  totalFiles st' = Int64.wrap (T + countEntries isFile es)
  ∧ underSizedFiles st' = Int64.wrap (U + countEntries (isUndersized flags) es)
  ∧ hashingFiles st' = Int64.wrap (H + countEntries (isHashed flags) es).
Proof.
  induction es as [|e es IH]; intros st st' T U H HT HU HH Hrun.
  - injection Hrun as <-. unfold countEntries. simpl. by rewrite !Z.add_0_r.
  - rewrite !countEntries_cons. rewrite walk_cons in Hrun.
    destruct e as [path [info|] fileErr];
      cbn [entry_path entry_info entry_err] in Hrun; [|done].
    assert (∀ T' U' H',
      totalFiles st' = Int64.wrap (T' + countEntries isFile es)
      ∧ underSizedFiles st'
        = Int64.wrap (U' + countEntries (isUndersized flags) es)
      ∧ hashingFiles st' = Int64.wrap (H' + countEntries (isHashed flags) es) →
      T' = T + (if isFile (mkEntry path (Some info) fileErr) then 1 else 0) →
      U' = U + (if isUndersized flags (mkEntry path (Some info) fileErr)
                then 1 else 0) →
      H' = H + (if isHashed flags (mkEntry path (Some info) fileErr)
                then 1 else 0) →
      totalFiles st'
      = Int64.wrap (T + ((if isFile (mkEntry path (Some info) fileErr)
                          then 1 else 0) + countEntries isFile es))
      ∧ underSizedFiles st'
        = Int64.wrap (U + ((if isUndersized flags (mkEntry path (Some info) fileErr)
                            then 1 else 0)
                           + countEntries (isUndersized flags) es))
      ∧ hashingFiles st'
        = Int64.wrap (H + ((if isHashed flags (mkEntry path (Some info) fileErr)
                            then 1 else 0)
                           + countEntries (isHashed flags) es))) as Hshift.
    { intros T' U' H' (-> & -> & ->) -> -> ->. by rewrite !Z.add_assoc. }
    rewrite isFile_mk, isUndersized_mk, isHashed_mk in Hshift |- *.
    destruct (IsDir info) eqn:Hd.
    { rewrite walkFn_directory in Hrun by done.
      apply (Hshift T U H); [by apply (IH st)|class_of_entry Hd Hd..]. }
    destruct fileErr as [err|].
    { rewrite walkFn_error in Hrun by done.
      apply (Hshift (T + 1) U H); [|class_of_entry Hd Hd..].
      eapply (IH _ st' (T + 1) U H); [..|exact Hrun]; simpl; try done.
      by rewrite HT, Int64Facts.incr_wrap. }
    destruct (tooSmall flags (info_Size info)) eqn:Hs.
    + rewrite walkFn_undersized in Hrun by done.
      apply (Hshift (T + 1) (U + 1) H); [|class_of_entry Hd Hs..].
      eapply (IH _ st' (T + 1) (U + 1) H); [..|exact Hrun]; simpl; try done.
      * by rewrite HT, Int64Facts.incr_wrap.
      * by rewrite HU, Int64Facts.incr_wrap.
    + rewrite walkFn_hashed in Hrun by done.
      apply (Hshift (T + 1) U (H + 1)); [|class_of_entry Hd Hs..].
      eapply (IH _ st' (T + 1) U (H + 1)); [..|exact Hrun]; simpl; try done.
      * by rewrite HT, Int64Facts.incr_wrap.
      * by rewrite HH, Int64Facts.incr_wrap.
Qed.

(** C7: after a scan that completed, the total is the sum of the
    undersized files, the files sent to hashing and the non-directory
    entries skipped for an access error.  The equation holds in int64
    arithmetic for every walk, and as written for the integers whenever the
    walk has fewer than 2^63 entries (no counter can wrap around then). *)
Theorem scan_counters_add_up (flags : Flags) (entries : list Entry)
    (st : WalkState) :
  walkFiles flags entries = Returned st →
  totalFiles st
  = Int64.add (Int64.add (underSizedFiles st) (hashingFiles st))
              (Int64.wrap (countEntries isErrorSkip entries))
  ∧ (Z.of_nat (length entries) < Int64.half →
     totalFiles st
     = underSizedFiles st + hashingFiles st + countEntries isErrorSkip entries
     ∧ totalFiles st = countEntries isFile entries
     ∧ underSizedFiles st = countEntries (isUndersized flags) entries
     ∧ hashingFiles st = countEntries (isHashed flags) entries).
Proof.
  intros Hrun.
  destruct (walk_counters flags entries walkInit st 0 0 0) as (HT & HU & HH);
    try done.
  rewrite !Z.add_0_l in *.
  pose proof (countEntries_partition flags entries) as Hpart.
  split.
  - by rewrite HT, HU, HH, Int64Facts.add_wrap3, Hpart.
  - intros Hlen.
    pose proof (countEntries_bounds isFile entries).
    pose proof (countEntries_bounds (isUndersized flags) entries).
    pose proof (countEntries_bounds (isHashed flags) entries).
    rewrite Int64Facts.wrap_in_range in HT, HU, HH
      by (unfold Int64.in_range, Int64.half in *; lia).
    rewrite HT, HU, HH. done.
Qed.

Lemma scan_counters_add_up_witness :
  ∃ st,
    walkFiles defaultFlags sampleTree = Returned st
    ∧ totalFiles st
      = underSizedFiles st + hashingFiles st
        + countEntries isErrorSkip sampleTree.
Proof.
  eexists. split; [reflexivity|].
  destruct (scan_counters_add_up defaultFlags sampleTree _ eq_refl)
    as [_ Hexact].
  exact (proj1 (Hexact eq_refl)).
Defined.

Example sample_walk :
  walkFiles defaultFlags sampleTree
  = Returned (mkWalkState 5 2 2
                [mkFileHash "/data/a" 300 ""; mkFileHash "/gone/b" 300 ""])
  ∧ countEntries isErrorSkip sampleTree = 1.
Proof. split; reflexivity. Qed.

(** ** Entries delivered with an access error *)

(** C9 (as the code has it): an entry delivered with an access error and
    with its file information present makes the callback return normally;
    nothing is enqueued and neither the undersized nor the hashing counter
    moves.  The entry is counted in [totalFiles] exactly when it is not a
    directory: directories are left before any counting. *)
Theorem access_error_entry_is_skipped (flags : Flags) (path : string)
    (info : FileInfo) (err : string) (st : WalkState) :
  ∃ st',
    walkFn flags path (Some info) (Some err) st = Returned st'
    ∧ hashReqCh st' = hashReqCh st
    ∧ underSizedFiles st' = underSizedFiles st
    ∧ hashingFiles st' = hashingFiles st
    ∧ totalFiles st'
      = if IsDir info then totalFiles st else Int64.incr (totalFiles st).
Proof.
  destruct (IsDir info) eqn:Hd.
  - exists st. by rewrite walkFn_directory.
  - eexists. by rewrite walkFn_error.
Qed.

(** C9 does not hold as stated.  An unreadable directory comes with an
    error and with its file information: the callback returns, but the
    entry is not counted in [totalFiles].  And an entry without file
    information (a failed [Lstat]) does not make the callback return at
    all: the call [info.IsDir()] panics. *)
Lemma access_error_entry_counterexample :
  (∃ st',
     walkFn defaultFlags "/data/private" (Some (mkFileInfo true 4096))
            (Some "open /data/private: permission denied") walkInit
     = Returned st'
     ∧ totalFiles st' ≠ Int64.incr (totalFiles walkInit))
  ∧ ¬ (∃ st',
         walkFn defaultFlags "/missing" None
                (Some "lstat /missing: no such file or directory") walkInit
         = Returned st').
Proof.
  split.
  - exists walkInit. split; [reflexivity|]. by vm_compute.
  - by intros [st' Hst'].
Qed.

(** ** Summary of the aggregator *)

Lemma pathCount_insert_None (t : CollisionTable) h bucket :
  t !! h = None →
  pathCount (<[h := bucket]> t) = (length bucket + pathCount t)%nat.
Proof.
  intros Hh. unfold pathCount.
  rewrite map_fold_insert_L; [done| |done]. intros; lia.
Qed.

Lemma pathCount_insert_Some (t : CollisionTable) h bucket bucket' :
  t !! h = Some bucket →
  (pathCount (<[h := bucket']> t) + length bucket
   = pathCount t + length bucket')%nat.
Proof.
  intros Hh.
  rewrite <- (insert_delete_id t h bucket Hh) at 2.
  rewrite <- (insert_delete_eq t h bucket').
  rewrite !pathCount_insert_None by apply lookup_delete_eq. lia.
Qed.

(** Every result consumed so far sits either alone in the singles map or
    in a bucket of the collisions map. *)
Lemma aggregateLoop_accounting (rs : list FileHash) :
  (size (singles (aggregateLoop rs)) + pathCount (collisions (aggregateLoop rs))
   = length rs)%nat.
Proof.
  induction rs as [|r rs IH] using rev_ind; [done|].
  rewrite aggregateLoop_snoc, length_app. simpl length.
  unfold aggregateStep.
  destruct (collisions (aggregateLoop rs) !! Hash r) as [bucket|] eqn:Hc; simpl.
  - pose proof (pathCount_insert_Some _ _ _ (bucket ++ [Pathname r]) Hc) as Hn.
    rewrite length_app in Hn. simpl in Hn. lia.
  - destruct (singles (aggregateLoop rs) !! Hash r) as [lone|] eqn:Hs; simpl.
    + pose proof (map_size_delete_Some (Hash r) (singles (aggregateLoop rs))
                    ltac:(by eexists)) as Hd.
      pose proof (map_size_ne_0_lookup_2 (singles (aggregateLoop rs)) (Hash r)
                    ltac:(by eexists)) as Hnz.
      apply singles_loop in Hs as [_ Hone].
      rewrite pathCount_insert_None, length_app by done. simpl. lia.
    + rewrite map_size_insert_None by done. lia.
Qed.

(** What the closing log line reports, in terms of the table: the buckets
    hold as many paths as results arrived outside the singles map, so the
    reported numbers are those of the table shifted by the number of
    requests that produced no reply. *)
Lemma summary_accounting (hashingFiles : Z) (replies : list FileHash) :
  let '(table, summary) := aggregateHashes hashingFiles replies in
  collidingFiles summary
  = Int64.wrap (Z.of_nat (pathCount table)
                + (hashingFiles - Z.of_nat (length replies)))
  ∧ duplicates summary
    = Int64.wrap (Z.of_nat (pathCount table) - Z.of_nat (size table)
                  + (hashingFiles - Z.of_nat (length replies))).
Proof.
  simpl. pose proof (aggregateLoop_accounting replies) as Hacc.
  unfold Int64.sub. split.
  - f_equal. lia.
  - replace (Int64.wrap (hashingFiles
                         - Z.of_nat (size (singles (aggregateLoop replies))))
             - Z.of_nat (size (collisions (aggregateLoop replies))))
      with (Int64.wrap (hashingFiles
                        - Z.of_nat (size (singles (aggregateLoop replies))))
            + - Z.of_nat (size (collisions (aggregateLoop replies)))) by lia.
    rewrite Int64Facts.wrap_add_l. f_equal. lia.
Qed.

(** With a reply for every request (and counts within int64) the summary
    is exact: the colliding files are the paths of the table, the
    duplicates are those paths less one per bucket. *)
Lemma summary_exact_without_drops (replies : list FileHash) :
  Z.of_nat (length replies) < Int64.half →
  let '(table, summary) := aggregateHashes (Z.of_nat (length replies)) replies in
  collidingFiles summary = Z.of_nat (pathCount table)
  ∧ duplicates summary = Z.of_nat (pathCount table) - Z.of_nat (size table).
Proof.
  intros Hlen.
  pose proof (summary_accounting (Z.of_nat (length replies)) replies) as Hs.
  simpl in *. destruct Hs as [-> ->].
  pose proof (aggregateLoop_accounting replies) as Hacc.
  assert (size (collisions (aggregateLoop replies))
          ≤ pathCount (collisions (aggregateLoop replies)))%nat as Hle.
  { pose proof (λ h b Hb, proj2 (collisions_loop replies h b Hb)) as Hall.
    revert Hall. generalize (collisions (aggregateLoop replies)).
    intros t. induction t as [|h b t Hh IHt] using map_ind; intros Hall.
    - by rewrite map_size_empty.
    - rewrite map_size_insert_None, pathCount_insert_None by done.
      assert (2 ≤ length b)%nat
        by (apply (Hall h); apply lookup_insert_eq).
      assert (size t ≤ pathCount t)%nat; [|lia].
      apply IHt. intros h' b' Hb'. apply (Hall h').
      rewrite lookup_insert_ne; [done|]. by intros ->; rewrite Hh in Hb'. }
  split; (etrans; [apply Int64Facts.wrap_in_range|]);
    unfold Int64.in_range, Int64.half in *; lia.
Qed.

Lemma aggregateLoop_one (r : FileHash) :
  aggregateLoop [r] = mkAggState {[Hash r := [Pathname r]]} ∅.
Proof.
  unfold aggregateLoop, aggregateStep. simpl.
  by rewrite !lookup_empty, insert_empty.
Qed.

(** C8 fails on the code when a request is dropped: in the sample tree two
    files are sent to hashing and one of them cannot be opened, so a single
    reply arrives.  The returned table is empty (no path, no bucket), yet
    the summary reports one colliding file and one duplicate, because it
    is computed from [hashingFiles] and not from the replies. *)
Theorem dropped_request_inflates_summary (sha512 md5 : Hasher) :
  ∃ table summary,
    scan sha512 md5 sampleDisk defaultFlags sampleTree
    = Returned (table, summary)
    ∧ pathCount table = 0%nat ∧ size table = 0%nat
    ∧ collidingFiles summary = 1
    ∧ duplicates summary = 1.
Proof.
  eexists _, _. split; [reflexivity|]. simpl.
  rewrite aggregateLoop_one. simpl.
  rewrite map_size_singleton, map_size_empty. by vm_compute.
Qed.

(** * Further properties of the code *)

(** ** Aggregator: contents of the returned table *)

(** X1: the table [aggregateHashes] returns binds a fingerprint exactly when
    at least two replies carried it, and the bucket then lists the paths of
    all those replies, in the order in which they arrived. *)
Theorem table_bucket_iff (hashingFiles : Z) (replies : list FileHash)
    (h : string) (bucket : list string) :
  (aggregateHashes hashingFiles replies).1 !! h = Some bucket
  ↔ bucket = paths_of h replies ∧ (2 ≤ length bucket)%nat.
Proof.
  simpl. split; [apply collisions_loop|].
  intros [-> Hlen]. destruct (tracks_loop replies h) as [-> _].
  by rewrite decide_True.
Qed.

(** X2: the aggregator neither loses nor repeats a reply: once the replies
    are consumed, the number of fingerprints left in the singles map plus
    the number of paths held in the buckets is the number of replies, and a
    path sits under a fingerprint, in a bucket or as a single, only if a
    reply with that fingerprint carried it. *)
Theorem every_reply_is_kept_once (replies : list FileHash) :
  (size (singles (aggregateLoop replies))
   + pathCount (collisions (aggregateLoop replies)) = length replies)%nat
  ∧ ∀ h paths p,
      (singles (aggregateLoop replies) !! h = Some paths
       ∨ collisions (aggregateLoop replies) !! h = Some paths) →
      p ∈ paths → ∃ r, r ∈ replies ∧ Hash r = h ∧ Pathname r = p.
Proof.
  split; [apply aggregateLoop_accounting|].
  intros h paths p Hlk Hp.
  assert (paths = paths_of h replies) as ->.
  { destruct Hlk as [Hs|Hc].
    - by apply singles_loop in Hs as [-> _].
    - by apply collisions_loop in Hc as [-> _]. }
  unfold paths_of in Hp.
  apply list_elem_of_fmap in Hp as (r & -> & Hr).
  apply list_elem_of_filter in Hr as [Hh Hr]. by exists r.
Qed.

Lemma paths_of_cons h r rs :
  paths_of h (r :: rs)
  = (if decide (Hash r = h) then [Pathname r] else []) ++ paths_of h rs.
Proof.
  unfold paths_of. rewrite filter_cons. by destruct (decide (Hash r = h)).
Qed.

Lemma paths_of_nil_iff h rs : paths_of h rs = [] ↔ h ∉ Hash <$> rs.
Proof.
  induction rs as [|r rs IH]; [by split; [intros _ ?%elem_of_nil|]|].
  rewrite paths_of_cons, fmap_cons, not_elem_of_cons.
  destruct (decide (Hash r = h)) as [<-|Hne]; simpl.
  - split; [done|]. by intros [? _].
  - rewrite IH. split; [by intros ?; split|by intros [_ ?]].
Qed.

Lemma fingerprints_NoDup rs :
  NoDup (Hash <$> rs) ↔ ∀ h, (length (paths_of h rs) ≤ 1)%nat.
Proof.
  induction rs as [|r rs IH].
  - split; [intros _ h; simpl; lia|intros _; constructor].
  - rewrite fmap_cons, NoDup_cons, IH. split.
    + intros [Hnew Hrest] h. rewrite paths_of_cons, length_app.
      destruct (decide (Hash r = h)) as [<-|Hne]; simpl; [|apply Hrest].
      apply paths_of_nil_iff in Hnew. by rewrite Hnew.
    + intros Hall. split.
      * apply paths_of_nil_iff. specialize (Hall (Hash r)).
        rewrite paths_of_cons, decide_True, length_app in Hall by done.
        simpl in Hall. destruct (paths_of (Hash r) rs); [done|simpl in *; lia].
      * intros h. specialize (Hall h).
        rewrite paths_of_cons, length_app in Hall. lia.
Qed.

(** X3: the returned table is empty exactly when no two replies share a
    fingerprint; in particular it is empty when there is no reply at all. *)
Theorem table_empty_iff_fingerprints_distinct
    (hashingFiles : Z) (replies : list FileHash) :
  (aggregateHashes hashingFiles replies).1 = ∅ ↔ NoDup (Hash <$> replies).
Proof.
  simpl. rewrite fingerprints_NoDup, map_empty. split.
  - intros Hnone h. destruct (tracks_loop replies h) as [Hc _].
    rewrite Hnone in Hc. case_decide; [done|lia].
  - intros Hall h. destruct (tracks_loop replies h) as [-> _].
    specialize (Hall h). case_decide; [lia|done].
Qed.

(** X4: when every request sent to hashing was answered (the counter
    [hashingFiles] is the number of replies, below 2^63), the summary is
    exact: "Misses" is the number of fingerprints seen once, "Hashes" the
    number of buckets, "Collisions" the number of paths in the buckets and
    "Dupes" that number less one per bucket; misses and colliding files
    together are all the replies. *)
Theorem summary_when_all_answered (hashingFiles : Z) (replies : list FileHash) :
  hashingFiles = Z.of_nat (length replies) →
  hashingFiles < Int64.half →
  let table := (aggregateHashes hashingFiles replies).1 in
  let summary := (aggregateHashes hashingFiles replies).2 in
  misses summary = Z.of_nat (size (singles (aggregateLoop replies)))
  ∧ hashes summary = Z.of_nat (size table)
  ∧ collidingFiles summary = Z.of_nat (pathCount table)
  ∧ duplicates summary = Z.of_nat (pathCount table) - Z.of_nat (size table)
  ∧ misses summary + collidingFiles summary = hashingFiles
  ∧ 0 <= duplicates summary.
Proof.
  intros -> Hlen table summary.
  pose proof (summary_exact_without_drops replies Hlen) as Hexact.
  pose proof (aggregateLoop_accounting replies) as Hacc.
  subst table summary. simpl in *. destruct Hexact as [Hc Hd].
  rewrite Hd, Hc. repeat split; try lia.
  assert (size (collisions (aggregateLoop replies))
          ≤ pathCount (collisions (aggregateLoop replies)))%nat; [|lia].
  pose proof (λ h b Hb, proj2 (collisions_loop replies h b Hb)) as Hall.
  revert Hall. generalize (collisions (aggregateLoop replies)).
  intros t. induction t as [|h b t Hh IHt] using map_ind; intros Hall.
  - by rewrite map_size_empty.
  - rewrite map_size_insert_None, pathCount_insert_None by done.
    assert (2 ≤ length b)%nat by (apply (Hall h); apply lookup_insert_eq).
    assert (size t ≤ pathCount t)%nat; [|lia].
    apply IHt. intros h' b' Hb'. apply (Hall h').
    rewrite lookup_insert_ne; [done|]. by intros ->; rewrite Hh in Hb'.
Qed.

Lemma summary_when_all_answered_witness :
  let a := mkFileHash "t/a" 300 "0000000000000300.ab" in
  let b := mkFileHash "t/b" 300 "0000000000000300.ab" in
  let c := mkFileHash "t/c" 512 "0000000000000512.cd" in
  let summary := (aggregateHashes 3 [a; b; c]).2 in
  misses summary + collidingFiles summary = 3 ∧ 0 <= duplicates summary.
Proof.
  intros a b c summary.
  destruct (summary_when_all_answered 3 [a; b; c] eq_refl eq_refl)
    as (_ & _ & _ & _ & Hsum & Hdup).
  split; [exact Hsum | exact Hdup].
Defined.

(** ** Formatting: nothing is lost in a fingerprint *)

Lemma DecodeString_EncodeToString (src : list byte) :
  DecodeString (EncodeToString src) = Some src.
Proof.
  induction src as [|v src IH]; [done|].
  cbn [EncodeToString DecodeString]. rewrite IH.
  by destruct v; vm_compute.
Qed.

Lemma EncodeToString_inj (a b : list byte) :
  EncodeToString a = EncodeToString b → a = b.
Proof.
  intros Heq. apply (f_equal DecodeString) in Heq.
  rewrite !DecodeString_EncodeToString in Heq. by injection Heq.
Qed.

(** X5: hexadecimal encoding doubles the length and is injective: two
    digests with the same hexadecimal text are the same bytes. *)
Theorem EncodeToString_injective (a b : list byte) :
  String.length (EncodeToString a) = (2 * length a)%nat
  ∧ (EncodeToString a = EncodeToString b ↔ a = b).
Proof.
  split; [apply EncodeToString_lower|].
  split; [apply EncodeToString_inj|by intros ->].
Qed.

(** [%016d] on a negative int64: a minus sign, then decimal digits only,
    at least 15 of them, whose value is the magnitude. *)
Lemma fmt_016d_negative (n : Z) :
  - Int64.half <= n < 0 →
  ∃ tail,
    list_ascii_of_string (fmt_016d n) = "-"%char :: tail
    ∧ forallb isDigit tail = true
    ∧ fold_left (λ a c, (10 * a + (N_of_ascii c - 48))%N) tail 0%N = Z.to_N (- n)
    ∧ (15 ≤ length tail)%nat.
Proof.
  intros [Hn Hn0]. unfold Int64.half in Hn.
  destruct (utoa_fuel_digits 20 (Z.to_N (Z.abs n)) EmptyString ltac:(lia))
    as (ds & Heq & Hdig & Hval & Hlen & _).
  { change (10 ^ N.of_nat 20)%N with (Z.to_N (10 ^ 20)). lia. }
  fold (utoa (Z.to_N (Z.abs n))) in Heq. simpl in Heq. rewrite app_nil_r in Heq.
  exists (replicate (15 - length ds) "0"%char ++ ds).
  unfold fmt_016d. rewrite (proj2 (Z.ltb_lt n 0)) by done.
  rewrite !chars_append, chars_zeros, chars_length, Heq.
  rewrite forallb_app, fold_left_app, Hdig, length_app, length_replicate.
  assert (∀ k, forallb isDigit (replicate k "0"%char) = true) as ->
    by (induction k; simpl; auto).
  assert (∀ k, fold_left (λ a c, (10 * a + (N_of_ascii c - 48))%N)
                 (replicate k "0"%char) 0%N = 0%N) as ->
    by (induction k; simpl; auto).
  rewrite Hval. repeat split; [f_equal; lia|lia].
Qed.

Lemma string_of_chars_inj (a b : string) :
  list_ascii_of_string a = list_ascii_of_string b → a = b.
Proof.
  intros Heq. apply (f_equal string_of_list_ascii) in Heq.
  by rewrite !string_of_list_ascii_of_string in Heq.
Qed.

Lemma fmt_016d_first_digit (n : Z) :
  0 <= n < Int64.half →
  ∃ c rest, list_ascii_of_string (fmt_016d n) = c :: rest ∧ isDigit c = true.
Proof.
  intros Hn. destruct (fmt_016d_nonneg n Hn) as (Hdig & _ & Hlen & _).
  unfold allChars in Hdig. rewrite chars_length in Hlen.
  destruct (list_ascii_of_string (fmt_016d n)) as [|c rest];
    [simpl in Hlen; lia|].
  simpl in Hdig. apply andb_true_iff in Hdig as [? _]. by exists c, rest.
Qed.

Lemma fmt_016d_inj (a b : Z) :
  Int64.in_range a → Int64.in_range b → fmt_016d a = fmt_016d b → a = b.
Proof.
  unfold Int64.in_range. intros Ha Hb Heq.
  destruct (Z.lt_ge_cases a 0) as [Ha0|Ha0], (Z.lt_ge_cases b 0) as [Hb0|Hb0].
  - destruct (fmt_016d_negative a ltac:(lia)) as (ta & Hca & _ & Hva & _).
    destruct (fmt_016d_negative b ltac:(lia)) as (tb & Hcb & _ & Hvb & _).
    rewrite Heq, Hcb in Hca. injection Hca as ->. lia.
  - destruct (fmt_016d_negative a ltac:(lia)) as (ta & Hca & _).
    destruct (fmt_016d_first_digit b ltac:(lia)) as (c & rest & Hcb & Hc).
    rewrite Heq, Hcb in Hca. by injection Hca as -> _.
  - destruct (fmt_016d_negative b ltac:(lia)) as (tb & Hcb & _).
    destruct (fmt_016d_first_digit a ltac:(lia)) as (c & rest & Hca & Hc).
    rewrite Heq, Hcb in Hca. by injection Hca as <- _.
  - destruct (fmt_016d_nonneg a ltac:(lia)) as (_ & Hva & _).
    destruct (fmt_016d_nonneg b ltac:(lia)) as (_ & Hvb & _).
    rewrite Heq, Hvb in Hva. lia.
Qed.

(** X6: [%016d] never renders two different int64 values alike, and the
    rendering starts with a minus sign exactly for the negative ones. *)
Theorem fmt_016d_injective (a b : Z) :
  Int64.in_range a → Int64.in_range b →
  (fmt_016d a = fmt_016d b ↔ a = b)
  ∧ (String.get 0 (fmt_016d a) = Some "-"%char ↔ a < 0).
Proof.
  intros Ha Hb.
  assert (∀ s c rest, list_ascii_of_string s = c :: rest →
                      String.get 0 s = Some c) as Hget.
  { intros [|c' s'] c rest; [done|]. by intros [= -> _]. }
  split; [split; [by apply fmt_016d_inj|by intros ->]|].
  unfold Int64.in_range in Ha. split.
  - intros Hminus. destruct (Z.lt_ge_cases a 0) as [Ha0|Ha0]; [done|].
    destruct (fmt_016d_first_digit a ltac:(lia)) as (c & rest & Hca & Hc).
    rewrite (Hget _ _ _ Hca) in Hminus. by injection Hminus as ->.
  - intros Ha0.
    destruct (fmt_016d_negative a ltac:(lia)) as (ta & Hca & _).
    by apply (Hget _ _ _ Hca).
Qed.

Lemma fmt_016d_injective_witness :
  (fmt_016d 300 = fmt_016d 300 ↔ 300 = 300)
  ∧ (String.get 0 (fmt_016d 300) = Some "-"%char ↔ 300 < 0).
Proof.
  apply (fmt_016d_injective 300 300); by vm_compute.
Defined.

(** X7: the path normalisation of [hashRequest] leaves no backslash,
    keeps the length, changes nothing in a path without backslash, and
    applying it twice is applying it once. *)
Theorem path_normalisation (s : string) :
  (backslash ∉ list_ascii_of_string (ReplaceAll s backslash slash))
  ∧ String.length (ReplaceAll s backslash slash) = String.length s
  ∧ ReplaceAll (ReplaceAll s backslash slash) backslash slash
    = ReplaceAll s backslash slash
  ∧ (ReplaceAll s backslash slash = s ↔ backslash ∉ list_ascii_of_string s).
Proof.
  assert (∀ t, backslash ∉ list_ascii_of_string t →
               ReplaceAll t backslash slash = t) as Hid.
  { induction t as [|c t IH]; [done|]. simpl.
    intros [Hc Ht]%not_elem_of_cons. rewrite IH by done.
    destruct (Ascii.eqb c backslash) eqn:E; [|done].
    by apply Ascii.eqb_eq in E. }
  assert (backslash ∉ list_ascii_of_string (ReplaceAll s backslash slash))
    as Hnone by by apply ReplaceAll_removes.
  split; [done|]. split; [|split].
  - by rewrite !chars_length, ReplaceAll_chars, length_fmap.
  - by apply Hid.
  - split; [by intros <-|apply Hid].
Qed.

(** ** Fingerprints: what sharing a bucket means *)

Lemma app_sep_inj {A} (c : A) (l1 r1 l2 r2 : list A) :
  c ∉ l1 → c ∉ l2 → l1 ++ c :: r1 = l2 ++ c :: r2 → l1 = l2 ∧ r1 = r2.
Proof.
  revert l2. induction l1 as [|x l1 IH]; intros [|y l2] H1 H2 Heq; simpl in *.
  - by injection Heq as ->.
  - injection Heq as <- _. by apply not_elem_of_cons in H2 as [? _].
  - injection Heq as -> _. by apply not_elem_of_cons in H1 as [? _].
  - injection Heq as -> Heq.
    apply not_elem_of_cons in H1 as [_ H1], H2 as [_ H2].
    by destruct (IH l2 H1 H2 Heq) as [-> ->].
Qed.

Lemma forallb_not_elem (P : ascii → bool) (l : list ascii) (c : ascii) :
  forallb P l = true → P c = false → c ∉ l.
Proof.
  intros Hall Hc Hin. rewrite forallb_forall in Hall.
  apply list_elem_of_In, Hall in Hin. congruence.
Qed.

Lemma fmt_016d_no_dot (n : Z) :
  Int64.in_range n → "."%char ∉ list_ascii_of_string (fmt_016d n).
Proof.
  unfold Int64.in_range. intros Hn.
  destruct (Z.lt_ge_cases n 0) as [Hn0|Hn0].
  - destruct (fmt_016d_negative n ltac:(lia)) as (tail & -> & Hdig & _).
    apply not_elem_of_cons. split; [done|].
    by eapply forallb_not_elem.
  - destruct (fmt_016d_nonneg n ltac:(lia)) as (Hdig & _).
    by eapply forallb_not_elem.
Qed.

Lemma EncodeToString_no_dot (src : list byte) :
  "."%char ∉ list_ascii_of_string (EncodeToString src).
Proof.
  destruct (EncodeToString_lower src) as [Hhex _].
  by eapply forallb_not_elem.
Qed.

Lemma Sprintf_016d_s_chars (size : Z) (hashString : string) :
  list_ascii_of_string (Sprintf_016d_s size hashString)
  = list_ascii_of_string (fmt_016d size)
    ++ "."%char :: list_ascii_of_string hashString.
Proof. unfold Sprintf_016d_s. by rewrite !chars_append. Qed.

Lemma Sprintf_016d_s_inj (a b : Z) (ha hb : string) :
  Int64.in_range a → Int64.in_range b →
  Sprintf_016d_s a ha = Sprintf_016d_s b hb → a = b ∧ ha = hb.
Proof.
  intros Ha Hb Heq. apply (f_equal list_ascii_of_string) in Heq.
  rewrite !Sprintf_016d_s_chars in Heq.
  apply app_sep_inj in Heq as [Hfmt Hrest]; try by apply fmt_016d_no_dot.
  split.
  - by apply fmt_016d_inj, string_of_chars_inj.
  - by apply string_of_chars_inj.
Qed.

Lemma two_digests_inj (a1 a2 b1 b2 : list byte) :
  EncodeToString a1 +:+ "." +:+ EncodeToString a2
  = EncodeToString b1 +:+ "." +:+ EncodeToString b2 →
  a1 = b1 ∧ a2 = b2.
Proof.
  intros Heq. apply (f_equal list_ascii_of_string) in Heq.
  rewrite !chars_append in Heq. simpl in Heq.
  apply app_sep_inj in Heq as [H1 H2]; try apply EncodeToString_no_dot.
  split; by apply EncodeToString_inj, string_of_chars_inj.
Qed.

(** What a successful [hashRequest] did: one read per digest, nothing
    logged, and the fingerprint built from the digest bytes. *)
Lemma hashRequest_Some_inv (sha512 md5 : Hasher) (disk : Disk) (flags : Flags)
    (request reply : FileHash) (s s' : IOState) :
  hashRequest sha512 md5 disk flags request s = (Some reply, s') →
  Pathname reply = ReplaceAll (Pathname request) backslash slash
  ∧ Size reply = Size request
  ∧ logged s' = logged s
  ∧ ∃ d1,
      digestBytes sha512 (disk (opens s) (Pathname reply)) = Some d1
      ∧ if Thorough flags then
          ∃ d2,
            digestBytes md5 (disk (S (opens s)) (Pathname reply)) = Some d2
            ∧ Hash reply
              = Sprintf_016d_s (Size request)
                  (EncodeToString d1 +:+ "." +:+ EncodeToString d2)
            ∧ opens s' = S (S (opens s))
        else
          Hash reply = Sprintf_016d_s (Size request) (EncodeToString d1)
          ∧ opens s' = S (opens s).
Proof.
  unfold hashRequest.
  set (pathname := ReplaceAll (Pathname request) backslash slash).
  unfold bind at 1. rewrite hashData_run.
  destruct (disk (opens s) pathname) as [err|cs err|chunks] eqn:Hfirst;
    try (by intros Hrun; inversion Hrun).
  destruct (Thorough flags).
  - unfold bind at 1. rewrite hashData_run. simpl.
    destruct (disk (S (opens s)) pathname) as [err|cs err|chunks2] eqn:Hsnd;
      try (by intros Hrun; inversion Hrun).
    intros Hrun. inversion Hrun; subst; simpl. repeat split.
    exists (Sum sha512 (copied sha512 chunks)). rewrite Hfirst. split; [done|].
    exists (Sum md5 (copied md5 chunks2)). by rewrite Hsnd.
  - intros Hrun. inversion Hrun; subst; simpl. repeat split.
    exists (Sum sha512 (copied sha512 chunks)). by rewrite Hfirst.
Qed.

(** X8: two files answered by [hashRequest] carry the same fingerprint,
    and so end in the same bucket, exactly when their sizes are equal and
    their primary digests are the same bytes and, in thorough mode, their
    secondary digests as well. *)
Theorem same_fingerprint_iff (sha512 md5 : Hasher) (flags : Flags)
    (disk1 disk2 : Disk) (r1 r2 p1 p2 : FileHash) (s1 s1' s2 s2' : IOState) :
  hashRequest sha512 md5 disk1 flags r1 s1 = (Some p1, s1') →
  hashRequest sha512 md5 disk2 flags r2 s2 = (Some p2, s2') →
  Int64.in_range (Size r1) → Int64.in_range (Size r2) →
  Hash p1 = Hash p2
  ↔ Size r1 = Size r2
    ∧ digestBytes sha512 (disk1 (opens s1) (Pathname p1))
      = digestBytes sha512 (disk2 (opens s2) (Pathname p2))
    ∧ (Thorough flags = true →
       digestBytes md5 (disk1 (S (opens s1)) (Pathname p1))
       = digestBytes md5 (disk2 (S (opens s2)) (Pathname p2))).
Proof.
  intros (_ & _ & _ & d1 & Hd1 & Hh1)%hashRequest_Some_inv
         (_ & _ & _ & e1 & He1 & Hh2)%hashRequest_Some_inv Hr1 Hr2.
  rewrite Hd1, He1. destruct (Thorough flags).
  - destruct Hh1 as (d2 & Hd2 & -> & _), Hh2 as (e2 & He2 & -> & _).
    rewrite Hd2, He2. split.
    + intros [-> [-> ->]%two_digests_inj]%Sprintf_016d_s_inj; done.
    + intros (-> & [= ->] & Hsnd). by injection (Hsnd eq_refl) as ->.
  - destruct Hh1 as [-> _], Hh2 as [-> _]. split.
    + intros [-> ->%EncodeToString_inj]%Sprintf_016d_s_inj; done.
    + by intros (-> & [= ->] & _).
Qed.

Lemma same_fingerprint_iff_witness :
  let flags := mkFlags "." 256 9 true false in
  let run := hashRequest sumHasher lenHasher sampleDisk flags in
  let r1 := mkFileHash "/data/a" 300 "" in
  let r2 := mkFileHash "/data/b" 300 "" in
  let s := mkIOState 0 [] in
  Hash (default r1 (run r1 s).1) = Hash (default r2 (run r2 s).1)
  ↔ Size r1 = Size r2
    ∧ digestBytes sumHasher (sampleDisk 0%nat "/data/a")
      = digestBytes sumHasher (sampleDisk 0%nat "/data/b")
    ∧ (Thorough flags = true →
       digestBytes lenHasher (sampleDisk 1%nat "/data/a")
       = digestBytes lenHasher (sampleDisk 1%nat "/data/b")).
Proof.
  intros flags run r1 r2 s.
  apply (same_fingerprint_iff sumHasher lenHasher flags sampleDisk sampleDisk
           r1 r2 _ _ s _ s _ eq_refl eq_refl); by vm_compute.
Defined.

(** ** Walker: the request queue and panics *)

Lemma walk_requests_from (flags : Flags) (es : list Entry) : ∀ st st',
  walk flags es st = Returned st' →
  hashReqCh st'
  = hashReqCh st ++ (requestOf <$> filter (λ e, isHashed flags e = true) es).
Proof.
  induction es as [|e es IH]; intros st st' Hrun.
  - injection Hrun as <-. by rewrite app_nil_r.
  - rewrite walk_cons in Hrun. rewrite filter_cons.
    destruct e as [path [info|] fileErr];
      cbn [entry_path entry_info entry_err] in Hrun; [|done].
    rewrite isHashed_mk.
    destruct (IsDir info) eqn:Hd.
    { rewrite walkFn_directory in Hrun by done.
      rewrite decide_False by done. by apply IH. }
    destruct fileErr as [err|].
    { rewrite walkFn_error in Hrun by done.
      rewrite decide_False by (simpl; repeat case_bool_decide; simpl; done || congruence).
      by apply IH in Hrun. }
    destruct (tooSmall flags (info_Size info)) eqn:Hs.
    + rewrite walkFn_undersized in Hrun by done.
      rewrite decide_False by (simpl; repeat case_bool_decide; simpl; done || congruence).
      by apply IH in Hrun.
    + rewrite walkFn_hashed in Hrun by done.
      rewrite decide_True by (simpl; repeat case_bool_decide; simpl; done || congruence).
      apply IH in Hrun. simpl in Hrun. rewrite <- app_assoc in Hrun.
      by rewrite fmap_cons.
Qed.

(** X9: a walk that returns has sent exactly one request per eligible
    entry (a non-directory without error that passes the size test), in
    traversal order; each request carries the entry's path and size and
    an empty fingerprint, and its size is neither 0 nor below the
    threshold. *)
Theorem walk_sends_eligible_entries (flags : Flags) (entries : list Entry)
    (st : WalkState) :
  walkFiles flags entries = Returned st →
  hashReqCh st = requestOf <$> filter (λ e, isHashed flags e = true) entries
  ∧ Forall (λ r, Hash r = EmptyString ∧ Size r ≠ 0 ∧ MinBytes flags <= Size r)
           (hashReqCh st).
Proof.
  intros Hrun. apply walk_requests_from in Hrun. simpl in Hrun.
  split; [done|]. rewrite Hrun. apply Forall_fmap, Forall_forall.
  intros e [Hhashed _]%list_elem_of_filter. simpl.
  unfold isHashed, tooSmall in Hhashed.
  apply andb_true_iff in Hhashed as [_ Hsize].
  apply negb_true_iff, orb_false_iff in Hsize as [Hz Hmin].
  apply Z.eqb_neq in Hz. apply Z.ltb_ge in Hmin. done.
Qed.

Lemma walk_sends_eligible_entries_witness :
  ∃ st,
    walkFiles defaultFlags sampleTree = Returned st
    ∧ hashReqCh st
      = requestOf <$> filter (λ e, isHashed defaultFlags e = true) sampleTree.
Proof.
  eexists. split; [reflexivity|].
  exact (proj1 (walk_sends_eligible_entries defaultFlags sampleTree _ eq_refl)).
Defined.

Lemma walk_panics_iff (flags : Flags) (es : list Entry) : ∀ st,
  walk flags es st = Panicked ↔ ∃ e, e ∈ es ∧ entry_info e = None.
Proof.
  induction es as [|e es IH]; intros st.
  - split; [done|]. by intros (e & ?%elem_of_nil & _).
  - rewrite walk_cons.
    destruct e as [path [info|] fileErr];
      cbn [entry_path entry_info entry_err].
    + assert (∃ st', walkFn flags path (Some info) fileErr st = Returned st')
        as [st' ->].
      { unfold walkFn. destruct (IsDir info); [by eexists|].
        destruct fileErr; [by eexists|].
        destruct (_ || _); by eexists. }
      rewrite IH. split.
      * intros (e & He & Hnone). exists e. split; [by right|done].
      * intros (e & [->|He]%elem_of_cons & Hnone); [done|by exists e].
    + split; [|done]. intros _. eexists. split; [by left|done].
Qed.

(** X10: the walk panics exactly when some entry comes without file
    information (whatever its error and whatever the flags); otherwise it
    returns, having gone through every entry. *)
Theorem walkFiles_panics_iff (flags : Flags) (entries : list Entry) :
  (walkFiles flags entries = Panicked
   ↔ ∃ e, e ∈ entries ∧ entry_info e = None)
  ∧ ((∃ st, walkFiles flags entries = Returned st)
     ↔ Forall (λ e, is_Some (entry_info e)) entries).
Proof.
  pose proof (walk_panics_iff flags entries walkInit) as Hp.
  split; [done|]. unfold walkFiles in *. rewrite Forall_forall. split.
  - intros [st Hst] e He.
    destruct (entry_info e) eqn:Hinfo; [by eexists|].
    assert (walk flags entries walkInit = Panicked) as Hpanic
      by (apply Hp; by exists e).
    congruence.
  - intros Hall. destruct (walk flags entries walkInit) as [st|] eqn:Hrun;
      [by exists st|].
    destruct (proj1 Hp eq_refl) as (e & He & Hnone).
    destruct (Hall e He) as [? ?]. congruence.
Qed.

(** X11: the checks of [main] on the flags: they panic exactly when the
    number of workers is below 1; otherwise only the minimum size can
    change, to 0 when it was negative; and flags that went through the
    checks once go through them again unchanged. *)
Theorem checkFlags_spec (f : Flags) :
  (checkFlags f = Panicked ↔ Threads f < 1)
  ∧ ∀ g, checkFlags f = Returned g →
         1 <= Threads g ∧ 0 <= MinBytes g
         ∧ MinBytes g = Z.max 0 (MinBytes f)
         ∧ BasePath g = BasePath f ∧ Threads g = Threads f
         ∧ Thorough g = Thorough f ∧ ListCollisions g = ListCollisions f
         ∧ checkFlags g = Returned g.
Proof.
  unfold checkFlags. destruct (Threads f <? 1) eqn:Ht.
  - apply Z.ltb_lt in Ht. split; [done|]. by intros g.
  - apply Z.ltb_ge in Ht. split; [split; [by destruct (_ <? _)|lia]|].
    intros g Hg. destruct (MinBytes f <? 0) eqn:Hm; injection Hg as <-; simpl.
    + apply Z.ltb_lt in Hm. rewrite (proj2 (Z.ltb_ge _ _) Ht).
      repeat split; try done; lia.
    + rewrite (proj2 (Z.ltb_ge _ _) Ht), Hm. apply Z.ltb_ge in Hm. destruct f.
      repeat split; try done; simpl in *; lia.
Qed.

(** ** Worker: replies, reads and log lines *)

Lemma hashRequest_io (sha512 md5 : Hasher) (disk : Disk) (flags : Flags)
    (request : FileHash) (s : IOState) :
  let run := hashRequest sha512 md5 disk flags request s in
  (opens s < opens run.2 ≤ opens s + 2)%nat
  ∧ (Thorough flags = false → opens run.2 = S (opens s))
  ∧ length (logged run.2)
    = (length (logged s) + match run.1 with Some _ => 0 | None => 1 end)%nat
  ∧ ∀ reply, run.1 = Some reply → replyKey reply = requestKey request.
Proof.
  intros run. subst run.
  destruct (digestFails disk flags request s) eqn:Hfail.
  - pose proof Hfail as Hf.
    apply (hashRequest_fails sha512 md5) in Hf as (s' & -> & Hopens & Hlog).
    simpl. rewrite Hopens, Hlog. repeat split; try done.
    + destruct (readFails _ _ _); lia.
    + destruct (readFails _ _ _); lia.
    + intros Ht. unfold digestFails in Hfail. rewrite Ht in Hfail.
      simpl in Hfail. rewrite orb_false_r in Hfail. rewrite Hfail. lia.
    + lia.
  - apply (hashRequest_succeeds sha512 md5) in Hfail as (reply & s' & Hrun).
    rewrite Hrun. simpl.
    apply hashRequest_Some_inv in Hrun as (Hp & Hs & Hlog & d1 & _ & Hrest).
    rewrite Hlog.
    assert (replyKey reply = requestKey request) as Hkey
      by (unfold replyKey, requestKey; by rewrite Hp, Hs).
    destruct (Thorough flags).
    + destruct Hrest as (d2 & _ & _ & ->).
      repeat split; try done; try lia. by intros ? [= <-].
    + destruct Hrest as [_ ->].
      repeat split; try done; try lia. by intros ? [= <-].
Qed.

(** X12: whatever the file system does, a worker answers in the order of
    its requests and invents nothing: the (path, size) pairs of its
    replies are a subsequence of the (normalised path, size) pairs of the
    requests it received. *)
Theorem worker_replies_follow_requests (sha512 md5 : Hasher) (disk : Disk)
    (flags : Flags) (requests : list FileHash) (s : IOState) :
  (replyKey <$> (hashingWorker sha512 md5 disk flags requests s).1)
    `sublist_of` (requestKey <$> requests).
Proof.
  revert s. induction requests as [|r rest IH]; intros s; [done|].
  rewrite hashingWorker_cons.
  destruct (hashRequest_io sha512 md5 disk flags r s) as (_ & _ & _ & Hkey).
  destruct (hashRequest sha512 md5 disk flags r s) as [[reply|] s1];
    cbn [fst snd] in *; rewrite !fmap_cons.
  - rewrite (Hkey reply eq_refl). apply sublist_skip, IH.
  - apply sublist_cons, IH.
Qed.

(** X13: the reads and the log of a worker: every request is either
    answered or reported by exactly one log line, never both; the file of
    a request is opened once or twice, so the worker opens between [n]
    and [2 n] files for [n] requests, and exactly [n] when thorough mode
    is off. *)
Theorem worker_reads_and_log (sha512 md5 : Hasher) (disk : Disk)
    (flags : Flags) (requests : list FileHash) (s : IOState) :
  let run := hashingWorker sha512 md5 disk flags requests s in
  (length run.1 + length (logged run.2)
   = length requests + length (logged s))%nat
  ∧ (opens s + length requests ≤ opens run.2
     ≤ opens s + 2 * length requests)%nat
  ∧ (Thorough flags = false →
     opens run.2 = (opens s + length requests)%nat).
Proof.
  revert s. induction requests as [|r rest IH]; intros s run; subst run.
  - simpl. repeat split; lia.
  - rewrite hashingWorker_cons. cbn [fst snd length].
    destruct (hashRequest_io sha512 md5 disk flags r s)
      as (Hopens & Hplain & Hlog & _).
    destruct (IH (hashRequest sha512 md5 disk flags r s).2)
      as (IHlen & IHopens & IHplain).
    destruct (hashRequest sha512 md5 disk flags r s) as [[reply|] s1];
      cbn [fst snd length] in *.
    + repeat split; try lia. intros Ht. rewrite IHplain, Hplain by done. lia.
    + repeat split; try lia. intros Ht. rewrite IHplain, Hplain by done. lia.
Qed.

(** ** The pipeline: termination *)

Lemma walk_app (flags : Flags) (a b : list Entry) : ∀ st,
  walk flags (a ++ b) st
  = match walk flags a st with
    | Returned st' => walk flags b st'
    | Panicked => Panicked
    end.
Proof.
  induction a as [|e a IH]; intros st; [done|].
  rewrite <- app_comm_cons, !walk_cons.
  by destruct (walkFn _ _ _ _ _).
Qed.

Lemma walkFn_queue_length (flags : Flags) path info fileErr w w' :
  walkFn flags path info fileErr w = Returned w' →
  (length (hashReqCh w) ≤ length (hashReqCh w') ≤ S (length (hashReqCh w)))%nat.
Proof.
  unfold walkFn. destruct info as [info|]; [|done].
  destruct (IsDir info); [intros [= <-]; lia|].
  destruct fileErr; [intros [= <-]; simpl; lia|].
  destruct (_ || _); intros [= <-]; simpl; [lia|].
  rewrite length_app. simpl. lia.
Qed.

Lemma sum_list_insert {A} (f : A → nat) (l : list A) (i : nat) (x y : A) :
  l !! i = Some x →
  (sum_list (f <$> <[i := y]> l) + f x = sum_list (f <$> l) + f y)%nat.
Proof.
  unfold fmap. revert i.
  induction l as [|a l IH]; intros [|i] Hi; simpl in *; try done.
  - injection Hi as ->. lia.
  - specialize (IH i Hi). lia.
Qed.

Section SystemFacts.

Variable sha512 md5 : Hasher.
Variable disks : nat → Disk.
Variable flags : Flags.

Local Abbreviation sstep := (step sha512 md5 disks flags).

Lemma pipeline_step_decreases_aux (st st' : System) :
  sstep st st' → (measure st' < measure st)%nat.
Proof.
  intros Hstep.
  destruct Hstep; unfold measure;
    cbn [sys_walker sys_walk sys_received sys_workers sys_replies
         sys_repliesClosed sys_result length].
  - apply walkFn_queue_length in H. lia.
  - lia.
  - pose proof (sum_list_insert workerWeight ws i _
                  (afterRequest (hashRequest sha512 md5 (disks i) flags r s).2
                     (hashRequest sha512 md5 (disks i) flags r s).1) H) as Hsum.
    apply lookup_lt_Some in H0.
    assert (workerWeight (afterRequest (hashRequest sha512 md5 (disks i) flags r s).2
                     (hashRequest sha512 md5 (disks i) flags r s).1) ≤ 3)%nat
      by (unfold afterRequest, workerWeight; simpl; destruct (_.1); simpl; lia).
    change (workerWeight (mkWorker s Idle)) with 1%nat in Hsum. lia.
  - pose proof (sum_list_insert workerWeight ws i _ (mkWorker s Idle) H) as Hsum.
    change (workerWeight (mkWorker s Idle)) with 1%nat in Hsum.
    change (workerWeight (mkWorker s (Holding p))) with 3%nat in Hsum.
    rewrite length_app. simpl length. lia.
  - pose proof (sum_list_insert workerWeight ws i _ (mkWorker s Exited) H) as Hsum.
    change (workerWeight (mkWorker s Idle)) with 1%nat in Hsum.
    change (workerWeight (mkWorker s Exited)) with 0%nat in Hsum. lia.
  - lia.
  - lia.
  - lia.
Qed.

(** X14: every step of the pipeline lowers [measure]; so no schedule of
    the goroutines runs for ever, and a run from a state takes at most as
    many steps as its measure. *)
Theorem pipeline_step_decreases (st st' : System) (n : nat) :
  nsteps sstep n st st' → (measure st' + n ≤ measure st)%nat.
Proof.
  induction 1 as [|n x y z Hstep _ IH]; [lia|].
  apply pipeline_step_decreases_aux in Hstep. lia.
Qed.

(** *** What every reachable state satisfies *)

Lemma sysInv_init (entries : list Entry) :
  sysInv flags entries (sysInit flags entries).
Proof.
  constructor; simpl.
  - by exists [].
  - lia.
  - by rewrite length_replicate.
  - by intros x [-> _]%elem_of_replicate.
  - done.
  - lia.
  - done.
  - done.
Qed.

Lemma sysInv_step (entries : list Entry) (st st' : System) :
  1 <= Threads flags →
  sysInv flags entries st → sstep st st' → sysInv flags entries st'.
Proof.
  intros Hthreads [Hw Hr Hn Hx Hc Hb Ha Hres] Hstep.
  assert (∀ ws : list Worker, length ws = Z.to_nat (Threads flags) →
            Forall (λ x, w_phase x = Exited) ws →
            ∃ x, x ∈ ws ∧ w_phase x = Exited) as Hsome.
  { intros [|x ws] Hlen Hall; [simpl in Hlen; lia|].
    exists x. split; [by left|]. by apply Forall_cons in Hall as [? _]. }
  destruct Hstep; simpl in *; constructor; simpl; try done.
  - (* walk: the visited entries *)
    destruct Hw as (visited & -> & Hwalk). exists (visited ++ [e]).
    split; [by rewrite <- app_assoc|].
    by rewrite walk_app, Hwalk, walk_cons, H.
  - apply walkFn_queue_length in H. lia.
  - intros x Hin Hex. by destruct (Hx x Hin Hex).
  - intros res0 Hres0. destruct (Hres res0 Hres0) as (Hcl & _ & _).
    destruct (Hsome ws Hn (Hc Hcl)) as (x & Hin & Hex).
    by destruct (Hx x Hin Hex).
  - (* close(requests) *)
    intros x Hin Hex. by destruct (Hx x Hin Hex).
  - (* take *)
    apply lookup_lt_Some in H0. lia.
  - by rewrite length_insert.
  - intros x Hin Hex. apply lookup_lt_Some in H0.
    apply list_elem_of_lookup in Hin as [j Hj].
    destruct (decide (i = j)) as [<-|Hne].
    + rewrite list_lookup_insert_eq in Hj by by eapply lookup_lt_Some.
      injection Hj as <-. unfold afterRequest in Hex. simpl in Hex.
      by destruct (_.1).
    + rewrite list_lookup_insert_ne in Hj by done.
      destruct (Hx x) as [_ ?]; [by eapply list_elem_of_lookup_2|done|lia].
  - intros Hcl. apply Hc in Hcl.
    by apply (Forall_lookup_1 _ _ _ _ Hcl) in H.
  - (* send *)
    by rewrite length_insert.
  - intros x Hin Hex. apply list_elem_of_lookup in Hin as [j Hj].
    destruct (decide (i = j)) as [<-|Hne].
    + rewrite list_lookup_insert_eq in Hj by by eapply lookup_lt_Some.
      by injection Hj as <-.
    + rewrite list_lookup_insert_ne in Hj by done.
      apply (Hx x); [by eapply list_elem_of_lookup_2|done].
  - intros Hcl. apply Hc in Hcl.
    by apply (Forall_lookup_1 _ _ _ _ Hcl) in H.
  - rewrite length_app. simpl. lia.
  - intros res0 Hres0. destruct (Hres res0 Hres0) as (Hcl & _ & _).
    apply Hc in Hcl. by apply (Forall_lookup_1 _ _ _ _ Hcl) in H.
  - (* exit *)
    by rewrite length_insert.
  - intros Hcl. by apply Forall_insert; [apply Hc|].
  - (* close(replies) *)
    intros res0 Hres0. by destruct (Hres res0 Hres0) as (? & _).
  - (* consume *)
    simpl in Hb. lia.
  - by rewrite aggregateLoop_snoc, Ha.
  - (* finish *)
    intros res0 [= <-]. by rewrite Ha.
Qed.

Lemma sysInv_reachable (entries : list Entry) (st : System) :
  1 <= Threads flags →
  rtc sstep (sysInit flags entries) st → sysInv flags entries st.
Proof.
  intros Hthreads. revert st.
  apply (rtc_ind_r (sysInv flags entries)); [apply sysInv_init|].
  intros st st' _ Hstep Hinv. by eapply sysInv_step.
Qed.

Lemma workers_cases (ws : list Worker) :
  (∃ i s p, ws !! i = Some (mkWorker s (Holding p)))
  ∨ (∃ i s, ws !! i = Some (mkWorker s Idle))
  ∨ Forall (λ x, w_phase x = Exited) ws.
Proof.
  induction ws as [|[s [|p|]] ws IH].
  - right; right. constructor.
  - right; left. by exists 0%nat, s.
  - left. by exists 0%nat, s, p.
  - destruct IH as [(i & s' & p & Hi)|[(i & s' & Hi)|Hall]].
    + left. by exists (S i), s', p.
    + right; left. by exists (S i), s'.
    + right; right. by constructor.
Qed.

(** X15: bounded buffers and a quiet end.  In every state the pipeline
    reaches, the request channel holds at most 65536 requests and the
    reply channel at most twice the number of workers.  When the
    aggregator has produced its result, the walker has finished the whole
    tree, every request was received, every worker has returned and the
    reply channel is closed and empty: the counter [hashingFiles] it read
    was final, the result is [aggregateHashes] of that counter and of the
    replies consumed, and no goroutine can take a further step. *)
Theorem pipeline_safety (entries : list Entry) (st : System) :
  1 <= Threads flags →
  rtc sstep (sysInit flags entries) st →
  (length (hashReqCh (sys_walk st)) - sys_received st ≤ reqCap)%nat
  ∧ (length (sys_replies st) ≤ repCap flags)%nat
  ∧ length (sys_workers st) = Z.to_nat (Threads flags)
  ∧ ∀ res, sys_result st = Some res →
      sys_walker st = WalkerDone
      ∧ walkFiles flags entries = Returned (sys_walk st)
      ∧ sys_received st = length (hashReqCh (sys_walk st))
      ∧ Forall (λ x, w_phase x = Exited) (sys_workers st)
      ∧ sys_repliesClosed st = true ∧ sys_replies st = []
      ∧ res = aggregateHashes (hashingFiles (sys_walk st)) (sys_consumed st)
      ∧ ¬ ∃ st', sstep st st'.
Proof.
  intros Hthreads Hrun.
  destruct (sysInv_reachable entries st Hthreads Hrun)
    as [Hw Hr Hn Hx Hc Hb Ha Hres].
  split; [lia|]. split; [done|]. split; [done|].
  intros res Hsome. destruct (Hres res Hsome) as (Hcl & Hbuf & ->).
  pose proof (Hc Hcl) as Hall.
  assert (sys_walker st = WalkerDone
          ∧ sys_received st = length (hashReqCh (sys_walk st))) as [Hdone Hk].
  { destruct (sys_workers st) as [|x ws] eqn:Hws; [simpl in Hn; lia|].
    apply (Hx x); [by left|]. by apply Forall_cons in Hall as [? _]. }
  repeat split; try done.
  - destruct Hw as (visited & Hent & Hwalk). rewrite Hdone in Hent.
    simpl in Hent. rewrite app_nil_r in Hent. by subst visited.
  - intros [st' Hstep].
    destruct Hstep; simpl in *; try done.
    + apply lookup_lt_Some in H0. lia.
    + by apply (Forall_lookup_1 _ _ _ _ Hall) in H.
    + by apply (Forall_lookup_1 _ _ _ _ Hall) in H.
Qed.

Lemma pipeline_progress_aux (entries : list Entry) (st : System) :
  1 <= Threads flags →
  rtc sstep (sysInit flags entries) st →
  sys_result st = None →
  aboutToPanic st ∨ ∃ st', sstep st st'.
Proof.
  intros Hthreads Hrun Hnone.
  destruct (sysInv_reachable entries st Hthreads Hrun)
    as [Hw Hr Hn Hx Hc Hb Ha Hres].
  destruct st as [wk w k ws buf cl agg con res]. simpl in *. subst res.
  destruct buf as [|p buf].
  2: { right. eexists. apply step_consume. }
  destruct (workers_cases ws) as [(i & s & p & Hi)|[(i & s & Hi)|Hall]].
  - right. eexists. eapply step_send; [done|].
    unfold repCap. simpl. lia.
  - destruct (decide (k < length (hashReqCh w))%nat) as [Hlt|Hge].
    + destruct (lookup_lt_is_Some_2 _ _ Hlt) as [r Hr'].
      right. eexists. by eapply step_take.
    + destruct wk as [[|e rest]|].
      * right. eexists. apply step_close_requests.
      * destruct (walkFn flags (entry_path e) (entry_info e) (entry_err e) w)
          as [w'|] eqn:Hfn.
        -- right. eexists. eapply step_walk; [done|].
           apply walkFn_queue_length in Hfn. unfold reqCap. lia.
        -- left. exists e, rest. split; [done|].
           unfold walkFn in Hfn. destruct (entry_info e) as [info|]; [|done].
           destruct (IsDir info); [done|]. destruct (entry_err e); [done|].
           by destruct (_ || _).
      * right. eexists. eapply step_exit; [done|lia].
  - destruct cl.
    + right. eexists. apply step_finish.
    + right. eexists. by apply step_close_replies.
Qed.

(** X16: the pipeline cannot get stuck.  With at least one worker, in
    every reachable state in which the aggregator has not returned yet,
    some goroutine can take a step, unless the walker is about to call
    [walkFn] on an entry without file information (the panic of
    [info.IsDir()]). *)
Theorem pipeline_progress (entries : list Entry) (st : System) :
  1 <= Threads flags →
  rtc sstep (sysInit flags entries) st →
  sys_result st = None →
  aboutToPanic st ∨ ∃ st', sstep st st'.
Proof. apply pipeline_progress_aux. Qed.

Lemma reachable_no_panic (entries : list Entry) (st : System) :
  1 <= Threads flags →
  rtc sstep (sysInit flags entries) st →
  Forall (λ e, is_Some (entry_info e)) entries → ¬ aboutToPanic st.
Proof.
  intros Hthreads Hrun Hall (e & rest & Hwk & Hnone).
  destruct (sysInv_reachable entries st Hthreads Hrun) as [Hw _ _ _ _ _ _ _].
  destruct Hw as (visited & -> & _). rewrite Hwk in Hall. simpl in Hall.
  apply Forall_app in Hall as [_ Hall]. apply Forall_cons in Hall as [[? He] _].
  congruence.
Qed.

(** X17: the pipeline always comes to an end.  From every reachable state
    the goroutines can be run on until the aggregator has returned its
    result or the walker is about to panic; and when every entry of the
    walk has its file information, every such run ends with a result. *)
Theorem pipeline_completes (entries : list Entry) (st : System) :
  1 <= Threads flags →
  rtc sstep (sysInit flags entries) st →
  (∃ st', rtc sstep st st'
          ∧ (is_Some (sys_result st') ∨ aboutToPanic st'))
  ∧ (Forall (λ e, is_Some (entry_info e)) entries →
     ∃ st' res, rtc sstep st st' ∧ sys_result st' = Some res).
Proof.
  intros Hthreads Hrun.
  assert (∃ st', rtc sstep st st'
                 ∧ (is_Some (sys_result st') ∨ aboutToPanic st')) as Hend.
  { remember (measure st) as m eqn:Hm. revert st Hrun Hm.
    induction m as [m IH] using lt_wf_ind. intros st Hrun ->.
    destruct (sys_result st) as [res|] eqn:Hres.
    { exists st. split; [done|]. left. by rewrite Hres. }
    destruct (pipeline_progress_aux entries st Hthreads Hrun Hres)
      as [Hpanic|[st1 Hstep]].
    { exists st. split; [done|]. by right. }
    destruct (IH (measure st1) (pipeline_step_decreases_aux _ _ Hstep) st1)
      as (st' & Hrun' & Hend); [by eapply rtc_r|done|].
    exists st'. split; [by eapply rtc_l|done]. }
  split; [done|]. intros Hall.
  destruct Hend as (st' & Hrun' & [[res Hres]|Hpanic]).
  - by exists st', res.
  - exfalso. eapply (reachable_no_panic entries st'); [done| |done..].
    by etrans.
Qed.

End SystemFacts.

(** ** The pipeline on a tree that does not change *)

Lemma singles_loop_is_Some rs h :
  is_Some (singles (aggregateLoop rs) !! h) ↔ length (paths_of h rs) = 1%nat.
Proof.
  destruct (tracks_loop rs h) as [_ ->]. case_decide.
  - split; [done|]. by eexists.
  - split; [by intros [? ?]|done].
Qed.

(** Aggregating a permutation of the replies changes neither the keys, nor
    the paths of a bucket up to their order, nor the summary. *)
Lemma aggregateHashes_Permutation (hashingFiles : Z) (rs1 rs2 : list FileHash) :
  rs1 ≡ₚ rs2 →
  dom (aggregateHashes hashingFiles rs1).1
  = dom (aggregateHashes hashingFiles rs2).1
  ∧ (∀ h b1 b2,
       (aggregateHashes hashingFiles rs1).1 !! h = Some b1 →
       (aggregateHashes hashingFiles rs2).1 !! h = Some b2 → b1 ≡ₚ b2)
  ∧ (aggregateHashes hashingFiles rs1).2 = (aggregateHashes hashingFiles rs2).2.
Proof.
  intros Hp.
  assert (dom (collisions (aggregateLoop rs1))
          = dom (collisions (aggregateLoop rs2))) as Hdc.
  { apply set_eq. intros h. rewrite !elem_of_dom, !collisions_loop_is_Some.
    by rewrite (Permutation_length (paths_of_Permutation h _ _ Hp)). }
  assert (dom (singles (aggregateLoop rs1))
          = dom (singles (aggregateLoop rs2))) as Hds.
  { apply set_eq. intros h. rewrite !elem_of_dom, !singles_loop_is_Some.
    by rewrite (Permutation_length (paths_of_Permutation h _ _ Hp)). }
  simpl. split; [done|]. split.
  - intros h b1 b2 [-> _]%collisions_loop [-> _]%collisions_loop.
    by apply paths_of_Permutation.
  - apply (f_equal size) in Hdc, Hds. rewrite !size_dom in Hdc, Hds.
    by rewrite Hdc, Hds.
Qed.

Lemma omap_insert_Permutation {A B} (f : A → option B) (l : list A)
    (i : nat) (x y : A) :
  l !! i = Some x →
  omap f (<[i := y]> l) ++ option_list (f x)
  ≡ₚ omap f l ++ option_list (f y).
Proof.
  revert i. induction l as [|a l IH]; intros [|i] Hi; simpl in *; try done.
  - injection Hi as ->. destruct (f x), (f y); simpl; solve_Permutation.
  - specialize (IH i Hi). destruct (f a); simpl; by rewrite IH.
Qed.

Lemma walkFn_queue_prefix (flags : Flags) path info fileErr w w' :
  walkFn flags path info fileErr w = Returned w' →
  ∃ more, hashReqCh w' = hashReqCh w ++ more.
Proof.
  unfold walkFn. destruct info as [info|]; [|done].
  destruct (IsDir info); [intros [= <-]; exists []; by rewrite app_nil_r|].
  destruct fileErr; [intros [= <-]; exists []; by rewrite app_nil_r|].
  destruct (_ || _); intros [= <-]; simpl; [|by eexists].
  exists []. by rewrite app_nil_r.
Qed.

Section StaticTree.

Variable sha512 md5 : Hasher.
Variable tree : string → FileRead.
Variable flags : Flags.

Local Abbreviation tstep := (step sha512 md5 (λ _ _, tree) flags).
Local Abbreviation reply_of := (answer sha512 md5 tree flags).
Local Abbreviation conserved := (conservedReplies sha512 md5 tree flags).

Lemma hashRequest_static (request : FileHash) (s : IOState) :
  (hashRequest sha512 md5 (λ _, tree) flags request s).1 = reply_of request.
Proof.
  unfold answer, hashRequest, bind, hashData, openAndCopy, ret, logPrint.
  simpl. set (pathname := ReplaceAll (Pathname request) backslash slash).
  destruct (tree pathname); simpl; try done.
  by destruct (Thorough flags).
Qed.

Lemma conserved_step (entries : list Entry) (st st' : System) :
  sysInv flags entries st → conserved st → tstep st st' → conserved st'.
Proof.
  intros [_ Hr _ _ _ _ _ _] Hcons Hstep. unfold conservedReplies in *.
  destruct Hstep; simpl in *; try done.
  - apply walkFn_queue_prefix in H as [more ->].
    by rewrite take_app_le by lia.
  - rewrite (take_S_r _ _ _ H0), omap_app. simpl.
    pose proof (omap_insert_Permutation held ws i _
                  (afterRequest (hashRequest sha512 md5 (λ _, tree) flags r s).2
                     (hashRequest sha512 md5 (λ _, tree) flags r s).1) H)
      as Hins.
    simpl in Hins. rewrite app_nil_r in Hins.
    rewrite Hins, <- Hcons, hashRequest_static.
    unfold afterRequest, held. simpl.
    destruct (reply_of r); simpl; solve_Permutation.
  - pose proof (omap_insert_Permutation held ws i _ (mkWorker s Idle) H)
      as Hins.
    simpl in Hins. rewrite app_nil_r in Hins.
    rewrite <- Hcons, <- Hins. solve_Permutation.
  - pose proof (omap_insert_Permutation held ws i _ (mkWorker s Exited) H)
      as Hins.
    simpl in Hins. rewrite !app_nil_r in Hins. by rewrite Hins.
  - rewrite <- Hcons. solve_Permutation.
Qed.

Lemma conserved_reachable (entries : list Entry) (st : System) :
  1 <= Threads flags →
  rtc tstep (sysInit flags entries) st → conserved st.
Proof.
  intros Hthreads. revert st. apply (rtc_ind_r conserved).
  - unfold conservedReplies. simpl. induction (Z.to_nat _); [done|]. simpl. done.
  - intros st st' Hreach Hstep Hcons.
    eapply conserved_step; [|done..].
    by apply (sysInv_reachable sha512 md5 (λ _ _, tree) flags entries).
Qed.

Lemma hashingWorker_static (requests : list FileHash) (s : IOState) :
  (hashingWorker sha512 md5 (λ _, tree) flags requests s).1
  = omap reply_of requests.
Proof.
  revert s. induction requests as [|r rest IH]; intros s; [done|].
  rewrite hashingWorker_cons, hashRequest_static, IH. simpl.
  by destruct (reply_of r).
Qed.

(** X18: the outcome does not depend on the schedule.  On a tree that
    does not change during the scan, whatever the number of workers and
    however the goroutines interleave, the result the aggregator returns
    is [aggregateHashes] of the final counter and of a permutation of
    the answers to the requests of the walk.  Its table has the same
    fingerprints as the table of the scan with one worker, each bucket
    holds the same paths up to their order, and the summary is the same. *)
Theorem pipeline_result_schedule_independent
    (entries : list Entry) (st : System) (res : CollisionTable * Summary) :
  1 <= Threads flags →
  rtc tstep (sysInit flags entries) st →
  sys_result st = Some res →
  ∃ w replies,
    walkFiles flags entries = Returned w
    ∧ replies ≡ₚ omap reply_of (hashReqCh w)
    ∧ res = aggregateHashes (hashingFiles w) replies
    ∧ ∃ table summary,
        scan sha512 md5 (λ _, tree) flags entries = Returned (table, summary)
        ∧ dom res.1 = dom table
        ∧ (∀ h b1 b2, res.1 !! h = Some b1 → table !! h = Some b2 → b1 ≡ₚ b2)
        ∧ res.2 = summary.
Proof.
  intros Hthreads Hrun Hres.
  pose proof (conserved_reachable entries st Hthreads Hrun) as Hcons.
  destruct (sysInv_reachable sha512 md5 (λ _ _, tree) flags entries st
              Hthreads Hrun) as [Hw Hr Hn Hx Hc Hb Ha Hresult].
  destruct (Hresult res Hres) as (Hcl & Hbuf & ->).
  pose proof (Hc Hcl) as Hall.
  assert (sys_walker st = WalkerDone
          ∧ sys_received st = length (hashReqCh (sys_walk st))) as [Hdone Hk].
  { destruct (sys_workers st) as [|x ws] eqn:Hws; [simpl in Hn; lia|].
    apply (Hx x); [by left|]. by apply Forall_cons in Hall as [? _]. }
  assert (walkFiles flags entries = Returned (sys_walk st)) as Hwalk.
  { destruct Hw as (visited & Hent & Hwalk). rewrite Hdone in Hent.
    simpl in Hent. rewrite app_nil_r in Hent. by subst visited. }
  assert (omap held (sys_workers st) = []) as Hheld.
  { clear -Hall. induction Hall as [|x ws Hx _ IH]; [done|].
    simpl. unfold held at 1. by rewrite Hx. }
  unfold conservedReplies in Hcons.
  rewrite Hbuf, Hheld, Hk, firstn_all in Hcons. simpl in Hcons.
  rewrite app_nil_r in Hcons.
  exists (sys_walk st), (sys_consumed st). repeat split; try done.
  unfold scan. rewrite Hwalk.
  pose proof (hashingWorker_static (hashReqCh (sys_walk st)) (mkIOState 0 []))
    as Hseq.
  destruct (hashingWorker _ _ _ _ _ _) as [seq s']. simpl in Hseq. subst seq.
  eexists _, _. split; [done|].
  by apply aggregateHashes_Permutation.
Qed.

End StaticTree.

(** ** A run of the pipeline with two workers *)

Lemma room_in_requests (n k : nat) : (n ≤ 16)%nat → (n ≤ k + reqCap)%nat.
Proof. unfold reqCap. lia. Qed.

Local Ltac pipeline_step c :=
  eapply rtc_l;
  [ c; first [ reflexivity
             | apply room_in_requests; simpl; lia
             | unfold repCap; simpl; lia
             | by repeat constructor ]
  | simpl ].

(** Both files are walked, each worker takes one request, the second
    worker's reply reaches the aggregator first. *)
Lemma sample_run :
  ∃ st res,
    rtc (step sumHasher lenHasher (λ _, sampleDisk) twoWorkers)
        (sysInit twoWorkers twinTree) st
    ∧ sys_result st = Some res
    ∧ sys_consumed st
      = [mkFileHash "/data/b" 300 "0000000000000300.26";
         mkFileHash "/data/a" 300 "0000000000000300.26"].
Proof.
  eexists _, _. split; [|split].
  - change (sysInit twoWorkers twinTree)
      with (mkSystem (Walking twinTree) walkInit 0
              [mkWorker (mkIOState 0 []) Idle; mkWorker (mkIOState 0 []) Idle]
              [] false aggInit [] None).
    unfold twinTree.
    pipeline_step ltac:(eapply step_walk).
    pipeline_step ltac:(eapply step_walk).
    pipeline_step ltac:(eapply step_close_requests).
    pipeline_step ltac:(eapply (step_take _ _ _ _ 0)).
    pipeline_step ltac:(eapply (step_take _ _ _ _ 1)).
    pipeline_step ltac:(eapply (step_send _ _ _ _ 1)).
    pipeline_step ltac:(eapply step_consume).
    pipeline_step ltac:(eapply (step_send _ _ _ _ 0)).
    pipeline_step ltac:(eapply step_consume).
    pipeline_step ltac:(eapply (step_exit _ _ _ _ 0)).
    pipeline_step ltac:(eapply (step_exit _ _ _ _ 1)).
    pipeline_step ltac:(eapply step_close_replies).
    pipeline_step ltac:(eapply step_finish).
    apply rtc_refl.
  - reflexivity.
  - reflexivity.
Qed.

Lemma pipeline_safety_witness :
  ∃ st res,
    sys_result st = Some res
    ∧ sys_walker st = WalkerDone
    ∧ walkFiles twoWorkers twinTree = Returned (sys_walk st)
    ∧ res = aggregateHashes (hashingFiles (sys_walk st)) (sys_consumed st).
Proof.
  destruct sample_run as (st & res & Hrun & Hres & _).
  destruct (pipeline_safety sumHasher lenHasher (λ _, sampleDisk) twoWorkers
              twinTree st ltac:(done) Hrun) as (_ & _ & _ & Hend).
  destruct (Hend res Hres) as (Hdone & Hwalk & _ & _ & _ & _ & Hval & _).
  by exists st, res.
Defined.

Lemma pipeline_progress_witness :
  aboutToPanic (sysInit twoWorkers twinTree)
  ∨ ∃ st', step sumHasher lenHasher (λ _, sampleDisk) twoWorkers
             (sysInit twoWorkers twinTree) st'.
Proof.
  apply (pipeline_progress sumHasher lenHasher (λ _, sampleDisk) twoWorkers
           twinTree); [done|apply rtc_refl|reflexivity].
Defined.

Lemma pipeline_completes_witness :
  ∃ st' res,
    rtc (step sumHasher lenHasher (λ _, sampleDisk) twoWorkers)
        (sysInit twoWorkers twinTree) st'
    ∧ sys_result st' = Some res.
Proof.
  destruct (pipeline_completes sumHasher lenHasher (λ _, sampleDisk) twoWorkers
              twinTree (sysInit twoWorkers twinTree) ltac:(done)
              (rtc_refl _ _)) as [_ Hend].
  apply Hend. unfold twinTree. repeat constructor; by eexists.
Defined.

Lemma pipeline_result_schedule_independent_witness :
  ∃ st res w replies,
    sys_result st = Some res
    ∧ walkFiles twoWorkers twinTree = Returned w
    ∧ replies ≡ₚ omap (answer sumHasher lenHasher (sampleDisk 0%nat) twoWorkers)
                      (hashReqCh w)
    ∧ res = aggregateHashes (hashingFiles w) replies.
Proof.
  destruct sample_run as (st & res & Hrun & Hres & _).
  destruct (pipeline_result_schedule_independent sumHasher lenHasher
              (sampleDisk 0%nat) twoWorkers twinTree st res ltac:(done) Hrun Hres)
    as (w & replies & Hwalk & Hperm & Hval & _).
  by exists st, res, w, replies.
Defined.

Lemma pipeline_step_decreases_witness :
  (measure (mkSystem WalkerDone walkInit 0 [] [] false aggInit [] None) + 1
   ≤ measure (mkSystem (Walking []) walkInit 0 [] [] false aggInit [] None))%nat.
Proof.
  apply (pipeline_step_decreases sumHasher lenHasher (λ _, sampleDisk)
           defaultFlags).
  apply nsteps_once, step_close_requests.
Defined.

(** ** Report of the collisions *)

Lemma filter_or_Permutation {A} (P Q : A → Prop)
    `{!∀ x, Decision (P x)} `{!∀ x, Decision (Q x)} (l : list A) :
  (∀ x, P x → Q x → False) →
  filter (λ x, P x ∨ Q x) l ≡ₚ filter P l ++ filter Q l.
Proof.
  intros Hdisj. induction l as [|x l IH]; [done|].
  rewrite !filter_cons.
  destruct (decide (P x)) as [HP|HP], (decide (Q x)) as [HQ|HQ].
  - by destruct (Hdisj x).
  - rewrite decide_True by by left. simpl. by rewrite IH.
  - rewrite decide_True by by right. rewrite IH. solve_Permutation.
  - rewrite decide_False by by intros [?|?]. done.
Qed.

Lemma concat_paths_of (ks : list string) (rs : list FileHash) :
  NoDup ks →
  concat ((λ h, paths_of h rs) <$> ks)
  ≡ₚ Pathname <$> filter (λ r, Hash r ∈ ks) rs.
Proof.
  induction 1 as [|k ks Hk _ IH]; simpl.
  - rewrite (list_filter_iff _ (λ _, False)); [|by intros r; rewrite elem_of_nil].
    by induction rs.
  - rewrite (list_filter_iff _ (λ r, Hash r = k ∨ Hash r ∈ ks))
      by (intros r; by rewrite elem_of_cons).
    rewrite filter_or_Permutation by (intros r -> ?; done).
    by rewrite fmap_app, IH.
Qed.

Lemma table_empty_iff (replies : list FileHash) :
  collisions (aggregateLoop replies) = ∅ ↔ NoDup (Hash <$> replies).
Proof.
  rewrite fingerprints_NoDup, map_empty. split.
  - intros Hnone h. destruct (tracks_loop replies h) as [Hc _].
    rewrite Hnone in Hc. case_decide; [done|lia].
  - intros Hall h. destruct (tracks_loop replies h) as [-> _].
    specialize (Hall h). case_decide; [lia|done].
Qed.

(** X19: what [main] prints.  Whatever the order in which the [range]
    over the table yields its buckets, the report has one line per
    bucket, every bucket printed has at least two paths, and the paths
    printed are exactly, each once, the paths of the replies whose
    fingerprint at least two replies carry; each path costs two writes
    and each bucket one more.  Nothing at all is printed exactly when
    listing is off or no two replies share a fingerprint. *)
Theorem report_lists_shared_paths (Quote : string → string) (flags : Flags)
    (hashingFiles : Z) (replies : list FileHash)
    (buckets : list (string * list string)) :
  buckets ≡ₚ map_to_list (aggregateHashes hashingFiles replies).1 →
  concat buckets.*2 ≡ₚ Pathname <$> filter (isShared replies) replies
  ∧ Forall (λ kv, (2 ≤ length kv.2)%nat) buckets
  ∧ length (reportCollisions Quote buckets)
    = (2 * length (filter (isShared replies) replies) + length buckets)%nat
  ∧ length buckets = size (aggregateHashes hashingFiles replies).1
  ∧ (mainOutput Quote flags (aggregateHashes hashingFiles replies).1 buckets = []
     ↔ ListCollisions flags = false ∨ NoDup (Hash <$> replies)).
Proof.
  simpl. set (table := collisions (aggregateLoop replies)). intros Hperm.
  assert (Forall (λ kv, kv.2 = paths_of kv.1 replies ∧ (2 ≤ length kv.2)%nat)
                 (map_to_list table)) as Hall.
  { apply Forall_forall. intros [h b] Hin%elem_of_map_to_list.
    by apply collisions_loop in Hin. }
  assert ((map_to_list table).*2
          = (λ h, paths_of h replies) <$> (map_to_list table).*1) as Hsnd.
  { clear -Hall. induction Hall as [|kv l [Hkv _] _ IH]; [done|].
    by rewrite !fmap_cons, Hkv, IH. }
  assert (concat buckets.*2
          ≡ₚ Pathname <$> filter (isShared replies) replies) as Hpaths.
  { rewrite Hperm, Hsnd, concat_paths_of by apply NoDup_fst_map_to_list.
    f_equiv. rewrite (list_filter_iff _ (isShared replies)); [done|].
    intros r. unfold isShared.
    rewrite <- (collisions_loop_is_Some replies (Hash r)). fold table. split.
    - intros ([h b] & -> & Hin%elem_of_map_to_list)%list_elem_of_fmap.
      by eexists.
    - intros [b Hb]. apply list_elem_of_fmap. exists (Hash r, b).
      split; [done|]. by apply elem_of_map_to_list. }
  assert (∀ l : list (string * list string),
            length (reportCollisions Quote l)
            = (2 * length (concat l.*2) + length l)%nat) as Hlen.
  { unfold fmap. induction l as [|[h b] l IH]; [done|].
    unfold reportCollisions in *. simpl.
    rewrite !length_app, IH. simpl.
    assert (length (flat_map (λ file, [" "; Quote file]) b)
            = (2 * length b)%nat) as ->
      by (clear; induction b as [|f b IHb]; simpl; lia).
    lia. }
  assert (length buckets = size table) as Hsize
    by by rewrite Hperm, length_map_to_list.
  split; [done|]. split; [|split; [|split; [done|]]].
  - rewrite Hperm. eapply Forall_impl; [exact Hall|]. by intros kv [_ ?].
  - by rewrite Hlen, Hpaths, length_fmap.
  - rewrite <- table_empty_iff. fold table. unfold mainOutput.
    destruct (decide (size table = 0%nat)) as [Hz|Hnz].
    + split; [|done]. intros _. right. by apply map_size_empty_iff.
    + destruct (ListCollisions flags).
      * split.
        -- intros Hout. apply (f_equal length) in Hout.
           rewrite Hlen in Hout. simpl in Hout. lia.
        -- intros [?|Hempty]; [done|]. by apply map_size_empty_iff in Hempty.
      * split; [by left|done].
Qed.

Lemma report_lists_shared_paths_witness :
  let a := mkFileHash "t/a" 300 "0000000000000300.ab" in
  let b := mkFileHash "t/b" 300 "0000000000000300.ab" in
  let c := mkFileHash "t/c" 512 "0000000000000512.cd" in
  let buckets := map_to_list (aggregateHashes 3 [a; b; c]).1 in
  concat buckets.*2 ≡ₚ Pathname <$> filter (isShared [a; b; c]) [a; b; c]
  ∧ length buckets = size (aggregateHashes 3 [a; b; c]).1.
Proof.
  intros a b c buckets.
  destruct (report_lists_shared_paths id defaultFlags 3 [a; b; c] buckets
              (reflexivity _)) as (Hpaths & _ & _ & Hsize & _).
  split; [exact Hpaths | exact Hsize].
Defined.
